(** * Gauss-Hermite expansions (Agama, [src/math_gausshermite.cpp])

    A shallow embedding of the Gauss-Hermite engine of Agama: the Hermite
    recurrence [hermiteArray], the moment estimator [computeClassicMoments],
    the direct coefficient integrator [computeGaussHermiteMoments], the
    B-spline matrix builder [computeGaussHermiteMatrix], the Levenberg-Marquardt
    model [GaussHermiteFitter] and the [GaussHermiteExpansion] object.

    The C++ code computes with [double].  It is translated once, over an
    interface [Arith] of the arithmetic it uses, and read in two ways:
    - [RealArith]: doubles idealised as real numbers (no rounding, no overflow,
      no NaN), for the statements that are about the mathematics;
    - [Binary64]: IEEE 754 binary64 as specified by [SpecFloat], for the
      statements that are about NaN, infinities and exact zeros.
    Statements proved for every [Arith] hold in both readings.

    Conventions: [std::vector<double>] and raw [double*] buffers are lists,
    read with [get] and written with [set]; an access outside the buffer is
    undefined in C++, here a read gives zero and a write is dropped.
    [unsigned int] counters are [nat] and [int] is [Z], without wrap-around.
    The code computes [order+1] on [unsigned int] and passes [order] to the
    [int] parameter of [hermiteArray]; both keep the value exactly when
    [order < 2^31], and this is the range of orders the embedding stands for
    (at [UINT_MAX] the code wraps [order+1] to 0, and from 2^31 on
    [hermiteArray] receives a negative degree).  The statements about what a
    construction or the matrix builder returns carry [order < 2^31] as a
    hypothesis.  [throw] and the phases a constructor runs through are
    explicit in the result type [Comp]. *)

From Stdlib Require Import ZArith List Bool Lia.
From Stdlib Require Strings.String.
From Stdlib Require Import Reals Lra.
From Stdlib Require Import Floats.SpecFloat.
Import ListNotations.

Set Implicit Arguments.

(* ================================================================= *)
(** ** Buffers and loops *)

Section Buffers.
Context {T : Type}.

(** [v[i]], with [d] read outside the buffer. *)
Definition get_or (d : T) (v : list T) (i : nat) : T := nth i v d.

(** [v[i] = x]; dropped outside the buffer. *)
Fixpoint set (v : list T) (i : nat) (x : T) : list T :=
  match v, i with
  | [], _ => []
  | _ :: tl, O => x :: tl
  | hd :: tl, S i' => hd :: set tl i' x
  end.

(** [std::vector::resize(n)], new cells holding [d]. *)
Definition resize (d : T) (v : list T) (n : nat) : list T :=
  firstn n v ++ repeat d (n - length v).
End Buffers.

(** [for (n = lo; n < hi; n++) body], on the loop state [S]. *)
Definition for_range {S : Type} (lo hi : nat) (body : nat -> S -> S) (s : S) : S :=
  fold_left (fun st n => body n st) (seq lo (hi - lo)) s.

(* ================================================================= *)
(** ** The arithmetic of [double] *)

Class Arith (D : Type) : Type := {
  of_Z : Z -> D;                (* (double)k, and the literals 0., 1., 2. *)
  dec : Z -> nat -> D;          (* decimal literal m * 10^-k *)
  dadd : D -> D -> D;
  dsub : D -> D -> D;
  dmul : D -> D -> D;
  ddiv : D -> D -> D;
  dopp : D -> D;
  deqb : D -> D -> bool;        (* x == y; x != y is its negation *)
  dsqrt : D -> D;               (* <cmath> sqrt *)
  dexp : D -> D;                (* <cmath> exp *)
  dfmax : D -> D -> D;          (* <cmath> fmax *)
  isFinite : D -> bool;         (* math_core.h isFinite *)
  isINFINITY : D -> bool;       (* x == INFINITY *)
  M_SQRT2 : D;                  (* <cmath> constant, sqrt(2) *)
  M_SQRTPI : D                  (* math_core.h constant, sqrt(pi) *)
}.

Declare Scope dbl_scope.
Delimit Scope dbl_scope with D.
Notation "# k" := (of_Z k%Z) (at level 1, format "# k") : dbl_scope.
Infix "+" := dadd : dbl_scope.
Infix "-" := dsub : dbl_scope.
Infix "*" := dmul : dbl_scope.
Infix "/" := ddiv : dbl_scope.
Notation "- x" := (dopp x) : dbl_scope.
Infix "==" := deqb (at level 70, no associativity) : dbl_scope.
Notation "x != y" := (negb (deqb x y)) (at level 70, no associativity) : dbl_scope.

(* ================================================================= *)
(** ** The Hermite recurrence *)

Section Hermite.
Context {D : Type} {A : Arith D}.
Local Open Scope dbl_scope.

Definition get (v : list D) (i : nat) : D := get_or #0 v i.

(** Modelled from the spec: [pow_2] of math_core.h, the square of its
    argument (the spec's 2*Q^2+1 nodes). *)
Definition pow_2 (x : D) : D := x * x.

(** [static const int QUADORDER = 7]. *)
Definition QUADORDER : Z := 7.

(** [pow_2(QUADORDER)] on [int]. *)
Definition pow_2_int (k : Z) : Z := (k * k)%Z.

(** [static const double sqroots[8]]. *)
Definition sqroots : list D :=
  [ #1; dsqrt #2; dsqrt #3; #2; dsqrt #5; dsqrt #6; dsqrt #7; dsqrt #8 ].

(** The values the locals [sqrtnplus1] and [sqrtn] take in turn [n] of the loop
    of [hermiteArray]. *)
Definition sqrtnplus1_of (n : nat) : D :=
  if (n <? 8)%nat then get sqroots n else dsqrt (#(Z.of_nat n) + #1).
Definition sqrtn_of (n : nat) : D :=
  if (n =? 1)%nat then #1 else sqrtnplus1_of (n - 1).

(** One turn of the loop of [hermiteArray]; the state is [(sqrtn, result)]. *)
Definition hermite_body (x : D) (n : nat) (st : D * list D) : D * list D :=
  let sqrtn := fst st in
  let result := snd st in
  let sqrtnplus1 :=
    if (n <? 8)%nat then get sqroots n else dsqrt (#(Z.of_nat n) + #1) in
  (sqrtnplus1,
   set result (n + 1)
       ((M_SQRT2 * x * get result n - sqrtn * get result (n - 1)) / sqrtnplus1)).

(** [void hermiteArray(const int nmax, const double x, double* result)]. *)
Definition hermiteArray (nmax : Z) (x : D) (result : list D) : list D :=
  if (nmax <? 1)%Z then result
  else
    let result := set result 0 #1 in
    let result := if (nmax >=? 1)%Z then set result 1 (M_SQRT2 * x) else result in
    snd (for_range 1 (Z.to_nat nmax) (hermite_body x) (#1, result)).
End Hermite.

(* ================================================================= *)
(** ** Exceptions and construction phases *)

(** [std::invalid_argument(what)]. *)
Inductive exn : Type :=
| invalid_argument (what : String.string).

(** The stages of work a construction or a matrix request can enter. *)
Inductive phase : Type :=
| MomentEstimation          (* computeClassicMoments *)
| Fitting                   (* nonlinearMultiFit on a GaussHermiteFitter *)
| CoefficientIntegration    (* computeGaussHermiteMoments *)
| MatrixIntegration (N : Z) (* computeGaussHermiteMatrix<N> *).

Inductive outcome (R : Type) : Type :=
| Returned (r : R)
| Thrown (e : exn).
Arguments Thrown {R} e.

(** A computation: the phases it entered, in order, and how it ended. *)
Definition Comp (R : Type) : Type := (list phase * outcome R)%type.

Definition ret {R} (r : R) : Comp R := ([], Returned r).
Definition throw {R} (e : exn) : Comp R := ([], Thrown e).
Definition enter {R} (ph : phase) (r : R) : Comp R := ([ph], Returned r).
Definition bind {R S} (c : Comp R) (k : R -> Comp S) : Comp S :=
  match snd c with
  | Returned r => (fst c ++ fst (k r), snd (k r))
  | Thrown e => (fst c, Thrown e)
  end.
Notation "x <- c ;; k" := (bind c (fun x => k))
  (at level 61, c at next level, right associativity).

(* ================================================================= *)
(** ** Interfaces of the collaborators *)

Section Interfaces.
Context {D : Type}.

(** [math::IFunctionNdim]. *)
Record IFunctionNdim : Type := {
  numVars : nat;
  numValues : nat;
  eval : list D -> list D
}.

(** [math::IFunctionNdimDeriv]; [values] and [derivs] may be null. *)
Record IFunctionNdimDeriv : Type := {
  numVarsD : nat;
  numValuesD : nat;
  evalDeriv : list D -> option (list D) -> option (list D) ->
              option (list D) * option (list D)
}.

(** [math::BsplineInterpolator1d<N>], as far as the matrix builder uses it. *)
Record BsplineInterpolator1d : Type := {
  xvalues : list D;
  numValuesB : nat;
  (* nonzeroComponents(x, derivOrder, bspl): the leftmost index and bspl[0..N] *)
  nonzeroComponents : D -> nat -> nat * list D
}.

(** [math::Matrix<double>], row-major. *)
Record Matrix : Type := {
  rows : nat;
  cols : nat;
  data : list D
}.

(** [GaussHermiteExpansion]: amplitude, centre, width and the coefficients. *)
Record GaussHermiteExpansion : Type := {
  Ampl : D;
  Center : D;
  Width : D;
  moments : list D
}.
End Interfaces.
Arguments IFunctionNdim D : clear implicits.
Arguments IFunctionNdimDeriv D : clear implicits.
Arguments BsplineInterpolator1d D : clear implicits.
Arguments Matrix D : clear implicits.
Arguments GaussHermiteExpansion D : clear implicits.

(** An integrator that answers [result] whatever it is asked: a given
    quadrature outcome. *)
Definition fixed_integrator {D : Type} (result : list D)
    : IFunctionNdim D -> list D -> list D -> D -> nat -> list D :=
  fun _ _ _ _ _ => result.

(** The texts of the two [std::invalid_argument] of this file. *)
Module Messages.
Import String.
Local Open Scope string_scope.
Definition order_too_small : string := "GaussHermiteExpansion: order must be >=2".
Definition wrong_degree : string := "computeGaussHermiteMatrix: wrong B-spline degree".
End Messages.

(* ================================================================= *)
(** ** The Gauss-Hermite engine *)

Section Model.
Context {D : Type} {A : Arith D}.
Local Open Scope dbl_scope.

(** Collaborators that live outside [math_gausshermite.cpp]. *)
(* math::integrateNdim(F, xlower, xupper, relToler, maxNumEval, result) *)
Variable integrateNdim : IFunctionNdim D -> list D -> list D -> D -> nat -> list D.
(* math::nonlinearMultiFit(F, xinit, relToler, maxNumIter, result) *)
Variable nonlinearMultiFit : IFunctionNdimDeriv D -> list D -> D -> Z -> list D.
(* math::BsplineInterpolator1d<N>(grid) *)
Variable newBspline : nat -> list D -> BsplineInterpolator1d D.
(* math::MAX_GL_TABLE, math::GLPOINTS[n], math::GLWEIGHTS[n] *)
Variable MAX_GL_TABLE : Z.
Variable GLPOINTS GLWEIGHTS : Z -> list D.
(* math::factorial(n), math::dfactorial(n) *)
Variable factorial dfactorial : nat -> D.

(** [static const double EPSREL_MOMENTS = 1e-3]. *)
Definition EPSREL_MOMENTS : D := dec 1 3.

(** [class MomentsIntegrand]: the integrands of [f], [f*x], [f*x^2] in the
    scaled variable [z]. *)
Definition MomentsIntegrand (fnc : D -> D) : IFunctionNdim D :=
  {| numVars := 1;
     numValues := 3;
     eval := fun vars =>
       let z := get vars 0 in
       let x := dexp (#1 / (#1 - z) - #1 / z) in
       let j := x * (#1 / pow_2 (#1 - z) + #1 / pow_2 z) in
       let fp := fnc x in
       let fm := fnc (- x) in
       if ((fp == #0) && (fm == #0)) || isINFINITY j then [ #0; #0; #0 ]
       else [ (fp + fm) * j; (fp - fm) * j * x; (fp + fm) * j * x * x ] |}.

(** [std::vector<double> computeClassicMoments(const math::IFunction& fnc)]. *)
Definition computeClassicMoments (fnc : D -> D) : list D :=
  let result := integrateNdim (MomentsIntegrand fnc) [ #0 ] [ #1 ] EPSREL_MOMENTS 1000 in
  let moments := repeat #0 3 in
  let moments := set moments 0 (get result 0) in
  let moments :=
    set moments 1 (if get result 0 != #0 then get result 1 / get result 0 else #0) in
  let moments :=
    set moments 2
      (if get result 0 != #0
       then dsqrt (dfmax #0 (get result 2 / get result 0 - pow_2 (get moments 1)))
       else #0) in
  moments.

(** A division that reports a zero divisor instead of dividing. *)
Definition checked_div (x y : D) : option D :=
  if y == #0 then None else Some (x / y).

(** [computeClassicMoments] with every division checked: [None] as soon as
    one of its divisions would divide by zero. *)
Definition computeClassicMoments_checked (fnc : D -> D) : option (list D) :=
  let result := integrateNdim (MomentsIntegrand fnc) [ #0 ] [ #1 ] EPSREL_MOMENTS 1000 in
  match (if get result 0 != #0 then checked_div (get result 1) (get result 0)
         else Some #0) with
  | None => None
  | Some mean =>
      match (if get result 0 != #0
             then match checked_div (get result 2) (get result 0) with
                  | Some q => Some (dsqrt (dfmax #0 (q - pow_2 mean)))
                  | None => None
                  end
             else Some #0) with
      | None => None
      | Some stddev => Some [ get result 0; mean; stddev ]
      end
  end.

(** The sign [(i%2 ? -1 : 1)]. *)
Definition parity_sign (i : nat) : Z := if (i mod 2 =? 0)%nat then 1%Z else (-1)%Z.

(** The locals of one turn of the loop over [p] of [computeGaussHermiteMoments]:
    the node [y], its weight [mult], and the samples [fp] and [fm]. *)
Definition gh_y (p : nat) : D := #(Z.of_nat p) * (#1 / #QUADORDER).
Definition gh_mult (ampl width y : D) : D :=
  M_SQRT2 * width / ampl / #QUADORDER * dexp ((- dec 5 1) * y * y).
Definition gh_fp (fnc : D -> D) (center width y : D) : D := fnc (center + width * y).
Definition gh_fm (fnc : D -> D) (center width : D) (p : nat) (y : D) : D :=
  if (p =? 0)%nat then #0 else fnc (center - width * y).

(** The body of the loop over [p] of [computeGaussHermiteMoments]; the
    state is [(hpoly, result)]. *)
Definition gh_moments_node (fnc : D -> D) (order : nat) (ampl center width : D)
    (p : nat) (st : list D * list D) : list D * list D :=
  let hpoly := fst st in
  let result := snd st in
  let y := gh_y p in
  let mult := gh_mult ampl width y in
  let fp := gh_fp fnc center width y in
  let fm := gh_fm fnc center width p y in
  let hpoly := hermiteArray (Z.of_nat order) y hpoly in
  (hpoly,
   for_range 0 (order + 1)
     (fun i result =>
        set result i (get result i + mult * (fp + #(parity_sign i) * fm) * get hpoly i))
     result).

(** [std::vector<double> computeGaussHermiteMoments(fnc, order, ampl, center, width)].
    The sizes [order+1] and the degree handed to [hermiteArray] are those of
    the code for [order < 2^31]; see the conventions at the head of the file. *)
Definition computeGaussHermiteMoments (fnc : D -> D) (order : nat)
    (ampl center width : D) : list D :=
  let hpoly := repeat #0 (order + 1) in
  let result := repeat #0 (order + 1) in
  snd (for_range 0 (Z.to_nat (pow_2_int QUADORDER) + 1)
         (gh_moments_node fnc order ampl center width) (hpoly, result)).

(** The body of the loop over the Gauss-Legendre nodes [k] of one grid
    segment [x1, x1+dx]; the state is [(hpoly, dresult)]. *)
Definition gh_matrix_node (N : nat) (interp : BsplineInterpolator1d D) (order : nat)
    (ampl center width : D) (glnodes glweights : list D) (x1 dx : D)
    (k : nat) (st : list D * list D) : list D * list D :=
  let hpoly := fst st in
  let dresult := snd st in
  let numBsplines := numValuesB interp in
  let x := x1 + dx * get glnodes k in
  let leftInd := fst (nonzeroComponents interp x 0) in
  let bspl := snd (nonzeroComponents interp x 0) in
  let y := (x - center) / width in
  let hpoly := hermiteArray (Z.of_nat order) y hpoly in
  let mult := M_SQRT2 / ampl * dx * get glweights k * dexp ((- dec 5 1) * y * y) in
  (hpoly,
   for_range 0 (order + 1)
     (fun m dresult =>
        for_range 0 (N + 1)
          (fun b dresult =>
             set dresult (m * numBsplines + b + leftInd)
               (get dresult (m * numBsplines + b + leftInd)
                + mult * get hpoly m * get bspl b))
          dresult)
     dresult).

(** [template<int N> math::Matrix<double> computeGaussHermiteMatrix(interp,
    order, ampl, center, width)], for [order < 2^31] as above. *)
Definition computeGaussHermiteMatrix_tpl (N : nat) (interp : BsplineInterpolator1d D)
    (order : nat) (ampl center width : D) : Matrix D :=
  let NnodesGL :=
    Z.min MAX_GL_TABLE (Z.max ((Z.of_nat N + Z.of_nat order + 1) / 2 + 1) 3) in
  let glnodes := GLPOINTS NnodesGL in
  let glweights := GLWEIGHTS NnodesGL in
  let hpoly := repeat #0 (order + 1) in
  let gridSize := length (xvalues interp) in
  let numBsplines := numValuesB interp in
  let dresult := repeat #0 ((order + 1) * numBsplines) in
  let st :=
    for_range 0 (gridSize - 1)
      (fun n st =>
         let x1 := get (xvalues interp) n in
         let x2 := get (xvalues interp) (n + 1) in
         let dx := x2 - x1 in
         for_range 0 (Z.to_nat NnodesGL)
           (gh_matrix_node N interp order ampl center width glnodes glweights x1 dx) st)
      (hpoly, dresult) in
  {| rows := order + 1; cols := numBsplines; data := snd st |}.

(** The node [y] of turn [p] of the loop of [GaussHermiteFitter::evalDeriv]. *)
Definition fit_y (p : nat) : D := (#1 / #QUADORDER) * #(Z.of_nat p - pow_2_int QUADORDER).

(** The body of the loop over the nodes [p] of [GaussHermiteFitter::evalDeriv];
    the state is [(hpoly, (values, derivs))]. *)
Definition fitter_node (order : nat) (fnc : D -> D) (vars : list D) (p : nat)
    (st : list D * (option (list D) * option (list D)))
    : list D * (option (list D) * option (list D)) :=
  let ampl := get vars 0 in
  let center := get vars 1 in
  let width := get vars 2 in
  let sqwidth := dsqrt width in
  let hpoly := fst st in
  let values := fst (snd st) in
  let derivs := snd (snd st) in
  let y := fit_y p in
  let x := center + width * y in
  let hpoly := hermiteArray (Z.of_nat order) y hpoly in
  let sum := for_range 3 (order + 1) (fun n sum => sum + get vars n * get hpoly n) #1 in
  let mult := #1 / M_SQRT2 / M_SQRTPI * dexp ((- dec 5 1) * y * y) * sum / sqwidth in
  let values :=
    match values with
    | Some values => Some (set values p (sqwidth * fnc x - mult * ampl))
    | None => None
    end in
  let derivs :=
    match derivs with
    | Some derivs =>
        let derivs := set derivs (p * (order + 1)) (- mult) in
        let derivs := set derivs (p * (order + 1) + 1) ((- mult) * ampl / width * y) in
        let derivs :=
          set derivs (p * (order + 1) + 2) (mult * ampl / width * (#1 - y * y)) in
        Some (for_range 3 (order + 1)
                (fun n derivs =>
                   set derivs (p * (order + 1) + n) ((- mult) * ampl / sum * get hpoly n))
                derivs)
    | None => None
    end in
  (hpoly, (values, derivs)).

(** [class GaussHermiteFitter: public math::IFunctionNdimDeriv]. *)
Definition GaussHermiteFitter (order : nat) (fnc : D -> D) : IFunctionNdimDeriv D :=
  {| numVarsD := order + 1;
     numValuesD := Z.to_nat (2 * pow_2_int QUADORDER + 1);
     evalDeriv := fun vars values derivs =>
       let hpoly := repeat #0 (order + 1) in
       snd (for_range 0 (Z.to_nat (2 * pow_2_int QUADORDER) + 1)
              (fitter_node order fnc vars) (hpoly, (values, derivs))) |}.

(** [GaussHermiteExpansion::GaussHermiteExpansion(fnc, order, ampl, center, width)],
    for [order < 2^31] as above: the test [order < 2] is that of the code for
    every order, what follows it is the code for the orders below 2^31. *)
Definition GaussHermiteExpansion_ctor (fnc : D -> D) (order : nat)
    (ampl center width : D) : Comp (GaussHermiteExpansion D) :=
  if (order <? 2)%nat
  then throw (invalid_argument Messages.order_too_small)
  else
    env <- (if negb (isFinite (ampl + center + width))
            then
              params <- enter MomentEstimation (computeClassicMoments fnc) ;;
              let fitorder := 2%nat in
              let params := resize #0 params (fitorder + 1) in
              params <- enter Fitting
                          (nonlinearMultiFit (GaussHermiteFitter fitorder fnc)
                             params (dec 1 6) 100) ;;
              ret (get params 0, get params 1, get params 2)
            else ret (ampl, center, width)) ;;
    let Ampl := fst (fst env) in
    let Center := snd (fst env) in
    let Width := snd env in
    moments <- enter CoefficientIntegration
                 (computeGaussHermiteMoments fnc order Ampl Center Width) ;;
    ret {| Ampl := Ampl; Center := Center; Width := Width; moments := moments |}.

(** [double GaussHermiteExpansion::value(const double x) const]; [scratch] is
    the block returned by [alloca], whatever it holds. *)
Definition value (self : GaussHermiteExpansion D) (scratch : list D) (x : D) : D :=
  let ncoefs := length (moments self) in
  if (ncoefs =? 0)%nat then #0
  else
    let xscaled := (x - Center self) / Width self in
    let norm :=
      (#1 / M_SQRT2 / M_SQRTPI) * Ampl self / Width self
      * dexp ((- dec 5 1) * pow_2 xscaled) in
    let hpoly := hermiteArray (Z.of_nat ncoefs - 1) xscaled scratch in
    let result :=
      for_range 0 ncoefs (fun i result => result + get (moments self) i * get hpoly i) #0 in
    result * norm.

(** [double GaussHermiteExpansion::normn(unsigned int n)]. *)
Definition normn (n : nat) : D :=
  if (n mod 2 =? 1)%nat then #0
  else
    match n with
    | 0%nat => #1
    | 2%nat => #1 / M_SQRT2
    | 4%nat => dec 6123724356957945 16
    | 6%nat => dec 5590169943749474 16
    | 8%nat => dec 5229125165837972 16
    | _ => dsqrt (factorial n) / dfactorial n
    end.

(** The loop [for(size_t n=0; n<moments.size(); n+=2)] of [norm], from index
    [n] with accumulator [result]; [fuel] bounds the number of turns. *)
Fixpoint norm_loop (coefs : list D) (fuel n : nat) (result : D) : D :=
  match fuel with
  | O => result
  | S fuel' =>
      if (n <? length coefs)%nat
      then norm_loop coefs fuel' (n + 2) (result + get coefs n * normn n)
      else result
  end.

(** [double GaussHermiteExpansion::norm() const]. *)
Definition norm (self : GaussHermiteExpansion D) : D :=
  norm_loop (moments self) (length (moments self)) 0 #0 * Ampl self.

(** [math::Matrix<double> computeGaussHermiteMatrix(int N, grid, order, ampl,
    center, width)]. *)
Definition computeGaussHermiteMatrix (N : Z) (grid : list D) (order : nat)
    (ampl center width : D) : Comp (Matrix D) :=
  match N with
  | 0%Z => enter (MatrixIntegration 0)
             (computeGaussHermiteMatrix_tpl 0 (newBspline 0 grid) order ampl center width)
  | 1%Z => enter (MatrixIntegration 1)
             (computeGaussHermiteMatrix_tpl 1 (newBspline 1 grid) order ampl center width)
  | 2%Z => enter (MatrixIntegration 2)
             (computeGaussHermiteMatrix_tpl 2 (newBspline 2 grid) order ampl center width)
  | 3%Z => enter (MatrixIntegration 3)
             (computeGaussHermiteMatrix_tpl 3 (newBspline 3 grid) order ampl center width)
  | _ => throw (invalid_argument Messages.wrong_degree)
  end.

(** *** Reference sums the properties are stated with *)

(** The quadrature sum that the loop of [computeGaussHermiteMoments] builds
    at index 0, where the Hermite factor is 1: the sum over the nodes [p] of
    [mult * (fp + fm)], the central node entering once. *)
Definition h0_quadrature (fnc : D -> D) (ampl center width : D) : D :=
  for_range 0 (Z.to_nat (pow_2_int QUADORDER) + 1)
    (fun p acc =>
       acc + gh_mult ampl width (gh_y p)
             * (gh_fp fnc center width (gh_y p) + #1 * gh_fm fnc center width p (gh_y p))
             * #1)
    #0.

(** The expansion the parameters [vars] of the fitter stand for: the envelope
    [vars[0..2]], and the coefficients [h_0 = 1], [h_1 = h_2 = 0] and
    [h_3..h_order] from [vars[3..order]]. *)
Definition fit_coefficients (order : nat) (vars : list D) : list D :=
  [ #1; #0; #0 ] ++ map (get vars) (seq 3 (order - 2)).
Definition fit_expansion (order : nat) (vars : list D) : GaussHermiteExpansion D :=
  {| Ampl := get vars 0; Center := get vars 1; Width := get vars 2;
     moments := fit_coefficients order vars |}.

(** The node [x_k = center + width * y_k] of the fitter. *)
Definition fit_x (vars : list D) (k : nat) : D := get vars 1 + get vars 2 * fit_y k.

(** The local [sum] of the fitter at a node [y]:
    [1 + sum over n = 3..order of vars[n] * H_n(y)]. *)
Definition fit_sum (order : nat) (vars : list D) (y : D) : D :=
  for_range 3 (order + 1)
    (fun n sum =>
       sum + get vars n * get (hermiteArray (Z.of_nat order) y (repeat #0 (order + 1))) n)
    #1.

(** The residual [sqwidth * fnc(x) - mult * ampl] of the fitter at node [p]. *)
Definition fit_residual (order : nat) (fnc : D -> D) (vars : list D) (p : nat) : D :=
  dsqrt (get vars 2) * fnc (fit_x vars p)
  - #1 / M_SQRT2 / M_SQRTPI * dexp ((- dec 5 1) * fit_y p * fit_y p)
    * fit_sum order vars (fit_y p) / dsqrt (get vars 2) * get vars 0.

(** The raw estimate of the variance from a quadrature outcome [result] with
    [result[0] != 0]: second moment over norm, minus the mean squared. *)
Definition raw_variance (result : list D) : D :=
  get result 2 / get result 0 - pow_2 (get result 1 / get result 0).


(** The sum over the even indices [n] below [length coefs] of
    [coefs[n] * normn(n)], added in increasing order of [n]. *)
Definition even_sum (coefs : list D) : D :=
  fold_left (fun acc n => acc + get coefs n * normn n)
    (filter Nat.even (seq 0 (length coefs))) #0.
End Model.

(* ================================================================= *)
(** ** Closed forms of the loops *)

Section ClosedForms.
Context {D : Type} {A : Arith D}.
Local Open Scope dbl_scope.
Variable MAX_GL_TABLE : Z.
Variable GLPOINTS GLWEIGHTS : Z -> list D.



(** The local [mult] of [GaussHermiteFitter::evalDeriv] at node [p]. *)
Definition fit_mult (order : nat) (vars : list D) (p : nat) : D :=
  #1 / M_SQRT2 / M_SQRTPI * dexp ((- dec 5 1) * fit_y p * fit_y p)
  * fit_sum order vars (fit_y p) / dsqrt (get vars 2).
End ClosedForms.

(* ================================================================= *)
(** ** Two readings of [double] *)

(** *** Real numbers: exact arithmetic, every value finite *)

Definition Req_bool (x y : R) : bool := if Req_dec_T x y then true else false.

Definition RealArith : Arith R :=
  {| of_Z := IZR;
     dec := fun m k => (IZR m / 10 ^ k)%R;
     dadd := Rplus;
     dsub := Rminus;
     dmul := Rmult;
     ddiv := Rdiv;
     dopp := Ropp;
     deqb := Req_bool;
     dsqrt := sqrt;
     dexp := exp;
     dfmax := Rmax;
     isFinite := fun _ => true;
     isINFINITY := fun _ => false;
     M_SQRT2 := sqrt 2;
     M_SQRTPI := sqrt PI |}.

(** Stand-ins for the integrator and the fitter in examples that never reach
    them: no values, and the initial guess returned as it is. *)
Definition no_integrator : IFunctionNdim R -> list R -> list R -> R -> nat -> list R :=
  fixed_integrator [].
Definition no_fit : IFunctionNdimDeriv R -> list R -> R -> Z -> list R :=
  fun _ init _ _ => init.

(** *** IEEE 754 binary64, round to nearest even *)

Module B64.
Definition prec : Z := 53.
Definition emax : Z := 1024.
Definition of_Z (k : Z) : spec_float := binary_normalize prec emax k 0 false.
Definition add : spec_float -> spec_float -> spec_float := SFadd prec emax.
Definition sub : spec_float -> spec_float -> spec_float := SFsub prec emax.
Definition mul : spec_float -> spec_float -> spec_float := SFmul prec emax.
Definition div : spec_float -> spec_float -> spec_float := SFdiv prec emax.
Definition sqrt : spec_float -> spec_float := SFsqrt prec emax.
(** A decimal literal [m * 10^-k] with [m] and [10^k] below 2^53: the
    correctly rounded quotient of two exact doubles. *)
Definition dec (m : Z) (k : nat) : spec_float := div (of_Z m) (of_Z (10 ^ Z.of_nat k)).
Definition is_nan (x : spec_float) : bool :=
  match x with S754_nan => true | _ => false end.
Definition is_finite (x : spec_float) : bool :=
  match x with S754_zero _ | S754_finite _ _ _ => true | _ => false end.
(** C's [fmax]: the larger argument, and the other one when one is NaN. *)
Definition fmax (x y : spec_float) : spec_float :=
  if SFleb y x || is_nan y then x else y.
(** Neither NaN nor negative: a zero, a positive finite double or +infinity. *)
Definition not_negative (x : spec_float) : bool :=
  match x with
  | S754_zero _ | S754_infinity false | S754_finite false _ _ => true
  | _ => false
  end.
(** The doubles nearest to sqrt(2) and to sqrt(pi). *)
Definition SQRT2 : spec_float := S754_finite false 6369051672525773 (-52).
Definition SQRTPI : spec_float := S754_finite false 7982422502469483 (-52).
End B64.

(** [libm_exp] is the platform's [exp], which IEEE 754 does not pin down. *)
Definition Binary64 (libm_exp : spec_float -> spec_float) : Arith spec_float :=
  {| of_Z := B64.of_Z;
     dec := B64.dec;
     dadd := B64.add;
     dsub := B64.sub;
     dmul := B64.mul;
     ddiv := B64.div;
     dopp := SFopp;
     deqb := SFeqb;
     dsqrt := B64.sqrt;
     dexp := libm_exp;
     dfmax := B64.fmax;
     isFinite := B64.is_finite;
     isINFINITY := fun x => SFeqb x (S754_infinity false);
     M_SQRT2 := B64.SQRT2;
     M_SQRTPI := B64.SQRTPI |}.

(** An [exp] fixed at the infinities only, as Annex F of the C standard fixes
    it: [exp(+inf) = +inf] and [exp(-inf) = +0]. *)
Definition exp_limits (x : spec_float) : spec_float :=
  match x with
  | S754_infinity false => S754_infinity false
  | S754_infinity true => S754_zero false
  | _ => x
  end.

(* ================================================================= *)
(** * Properties *)

Unset Implicit Arguments.

(** ** Buffers and loops *)

Section BufferFacts.
Context {T : Type}.
Implicit Types (v : list T) (i j : nat) (x d : T).

Lemma set_length v i x : length (set v i x) = length v.
Proof.
  revert i; induction v as [|hd tl IH]; intros [|i]; simpl; auto.
Qed.

Lemma get_or_set_same d v i x : i < length v -> get_or d (set v i x) i = x.
Proof.
  unfold get_or; revert i; induction v as [|hd tl IH]; intros [|i]; simpl; intros Hi;
    try lia; auto.
  apply IH; lia.
Qed.

Lemma get_or_set_other d v i j x : i <> j -> get_or d (set v i x) j = get_or d v j.
Proof.
  unfold get_or; revert i j; induction v as [|hd tl IH]; intros [|i] [|j] Hij; simpl;
    auto; lia.
Qed.

Lemma get_or_repeat d n i : get_or d (repeat d n) i = d.
Proof.
  unfold get_or; revert i; induction n as [|n IH]; intros [|i]; simpl; auto.
Qed.
End BufferFacts.

Section LoopFacts.
Context {S : Type}.
Implicit Types (body : nat -> S -> S) (s : S).

Lemma for_range_nil lo hi body s : hi <= lo -> for_range lo hi body s = s.
Proof.
  intros H; unfold for_range. replace (hi - lo) with 0 by lia. reflexivity.
Qed.

Lemma for_range_snoc lo hi body s :
  lo <= hi -> for_range lo (Datatypes.S hi) body s = body hi (for_range lo hi body s).
Proof.
  intros H; unfold for_range.
  replace (Datatypes.S hi - lo) with (Datatypes.S (hi - lo)) by lia.
  rewrite seq_S, fold_left_app. simpl.
  replace (lo + (hi - lo)) with hi by lia. reflexivity.
Qed.

(** Loop invariants: [P n s] holds of the state before turn [n]. *)
Lemma for_range_invariant (P : nat -> S -> Prop) lo hi body s :
  lo <= hi ->
  P lo s ->
  (forall n st, lo <= n < hi -> P n st -> P (Datatypes.S n) (body n st)) ->
  P hi (for_range lo hi body s).
Proof.
  intros Hle H0 Hstep. induction hi as [|hi IH].
  - assert (lo = 0) by lia; subst. rewrite for_range_nil by lia. exact H0.
  - destruct (Nat.eq_dec lo (Datatypes.S hi)) as [->|Hne].
    + rewrite for_range_nil by lia. exact H0.
    + rewrite for_range_snoc by lia. apply Hstep; [lia|].
      apply IH; [lia|]. intros n st Hn. apply Hstep. lia.
Qed.

Lemma for_range_ext lo hi body body' s :
  (forall n st, lo <= n < hi -> body n st = body' n st) ->
  for_range lo hi body s = for_range lo hi body' s.
Proof.
  intros Hext. destruct (Nat.le_gt_cases lo hi) as [Hle|Hgt].
  - enough (H : hi <= hi -> for_range lo hi body s = for_range lo hi body' s)
      by (apply H; lia).
    apply for_range_invariant
      with (P := fun n st => n <= hi -> st = for_range lo n body' s); auto.
    + intros _. now rewrite for_range_nil.
    + intros n st Hn IH _. rewrite for_range_snoc by lia.
      rewrite <- Hext by lia. f_equal. apply IH. lia.
  - now rewrite !for_range_nil by lia.
Qed.
End LoopFacts.

(** ** The Hermite recurrence *)

Section HermiteFacts.
Context {D : Type} {A : Arith D}.
Local Open Scope dbl_scope.
Implicit Types (x : D) (r : list D) (n m i : nat).

Lemma get_set_same r i (v : D) : i < length r -> get (set r i v) i = v.
Proof. apply get_or_set_same. Qed.

Lemma get_set_other r i j (v : D) : i <> j -> get (set r i v) j = get r j.
Proof. apply get_or_set_other. Qed.

Lemma hermite_loop_spec x r0 m :
  1 <= m ->
  let st := for_range 1 m (hermite_body x) (#1, r0) in
  fst st = sqrtn_of m /\
  length (snd st) = length r0 /\
  (forall j, (j <= 1 \/ m < j) -> get (snd st) j = get r0 j) /\
  (forall n, 1 <= n < m -> n + 1 < length r0 ->
     get (snd st) (n + 1) =
     (M_SQRT2 * x * get (snd st) n - sqrtn_of n * get (snd st) (n - 1)) / sqrtnplus1_of n).
Proof.
  intros Hm. cbv zeta.
  apply for_range_invariant with
    (P := fun m st =>
       fst st = sqrtn_of m /\
       length (snd st) = length r0 /\
       (forall j, (j <= 1 \/ m < j) -> get (snd st) j = get r0 j) /\
       (forall n, 1 <= n < m -> n + 1 < length r0 ->
          get (snd st) (n + 1) =
          (M_SQRT2 * x * get (snd st) n - sqrtn_of n * get (snd st) (n - 1))
          / sqrtnplus1_of n)); auto.
  - simpl. repeat split; auto. intros; lia.
  - intros n [s r] Hn (Hs & Hlen & Hout & Hrec). simpl in *.
    repeat split.
    + unfold sqrtn_of, sqrtnplus1_of.
      replace (S n - 1)%nat with n by lia.
      destruct (Nat.eqb_spec (S n) 1); [lia|]. reflexivity.
    + rewrite set_length. exact Hlen.
    + intros j Hj. rewrite get_set_other by lia. apply Hout. lia.
    + intros k Hk Hk1.
      destruct (Nat.eq_dec k n) as [->|Hne].
      * rewrite get_set_same by lia.
        rewrite !get_set_other by lia. subst s. reflexivity.
      * rewrite !get_set_other by lia. apply Hrec; lia.
Qed.

Lemma hermiteArray_below_1 nmax x r : (nmax < 1)%Z -> hermiteArray nmax x r = r.
Proof.
  intros H. unfold hermiteArray. destruct (Z.ltb_spec nmax 1); [reflexivity|lia].
Qed.

Lemma hermiteArray_unfold nmax x r :
  (1 <= nmax)%Z ->
  hermiteArray nmax x r =
  snd (for_range 1 (Z.to_nat nmax) (hermite_body x) (#1, set (set r 0 #1) 1 (M_SQRT2 * x))).
Proof.
  intros H. unfold hermiteArray.
  destruct (Z.ltb_spec nmax 1); [lia|].
  destruct (Z.geb_spec nmax 1); [reflexivity|lia].
Qed.

Lemma hermiteArray_length nmax x r : length (hermiteArray nmax x r) = length r.
Proof.
  destruct (Z.lt_ge_cases nmax 1) as [H|H].
  - now rewrite hermiteArray_below_1.
  - rewrite hermiteArray_unfold by lia.
    destruct (hermite_loop_spec x (set (set r 0 #1) 1 (M_SQRT2 * x)) (Z.to_nat nmax))
      as (_ & Hlen & _); [lia|].
    rewrite Hlen, !set_length. reflexivity.
Qed.

(** What [hermiteArray] leaves in a buffer that holds [nmax+1] entries. *)
Lemma hermiteArray_spec nmax x r :
  (1 <= nmax)%Z -> (Z.to_nat nmax + 1 <= length r)%nat ->
  get (hermiteArray nmax x r) 0 = #1 /\
  get (hermiteArray nmax x r) 1 = M_SQRT2 * x /\
  (forall n, (1 <= n < Z.to_nat nmax)%nat ->
     get (hermiteArray nmax x r) (n + 1) =
     (M_SQRT2 * x * get (hermiteArray nmax x r) n
      - sqrtn_of n * get (hermiteArray nmax x r) (n - 1)) / sqrtnplus1_of n) /\
  (forall j, (Z.to_nat nmax < j)%nat -> get (hermiteArray nmax x r) j = get r j).
Proof.
  intros Hn Hlen. rewrite hermiteArray_unfold by lia.
  destruct (hermite_loop_spec x (set (set r 0 #1) 1 (M_SQRT2 * x)) (Z.to_nat nmax))
    as (_ & Hl & Hout & Hrec); [lia|].
  rewrite !set_length in *.
  repeat split.
  - rewrite Hout by lia. rewrite get_set_other by lia. apply get_set_same. lia.
  - rewrite Hout by lia. apply get_set_same. rewrite set_length. lia.
  - intros n Hn'. apply Hrec; lia.
  - intros j Hj. rewrite Hout by lia. rewrite !get_set_other by lia. reflexivity.
Qed.

(** The entries [0..nmax] do not depend on what the buffer held before. *)
Lemma hermiteArray_fresh nmax x r r' i :
  (1 <= nmax)%Z -> (Z.to_nat nmax + 1 <= length r)%nat ->
  (Z.to_nat nmax + 1 <= length r')%nat -> (i <= Z.to_nat nmax)%nat ->
  get (hermiteArray nmax x r) i = get (hermiteArray nmax x r') i.
Proof.
  intros Hn Hr Hr'.
  destruct (hermiteArray_spec nmax x r Hn Hr) as (H0 & H1 & Hrec & _).
  destruct (hermiteArray_spec nmax x r' Hn Hr') as (H0' & H1' & Hrec' & _).
  induction i as [i IH] using lt_wf_ind. intros Hi.
  destruct i as [|[|k]].
  - now rewrite H0, H0'.
  - now rewrite H1, H1'.
  - replace (S (S k)) with (S k + 1)%nat by lia.
    rewrite Hrec, Hrec' by lia.
    rewrite (IH (S k)) by lia. rewrite (IH (S k - 1)%nat) by lia. reflexivity.
Qed.
End HermiteFacts.

(** ** The direct coefficient integrator *)

Section MomentsFacts.
Context {D : Type} {A : Arith D}.
Local Open Scope dbl_scope.
Implicit Types (fnc : D -> D) (order p i : nat) (ampl center width : D).

(** [for (i = 0; i < n; i++) r[i] += t i]. *)
Lemma accumulate_spec (t : nat -> D) n r :
  let r' := for_range 0 n (fun i r => set r i (get r i + t i)) r in
  length r' = length r /\
  (forall i, (i < n)%nat -> (i < length r)%nat -> get r' i = get r i + t i) /\
  (forall i, (n <= i)%nat -> get r' i = get r i).
Proof.
  cbv zeta.
  apply for_range_invariant with
    (P := fun n r' =>
       length r' = length r /\
       (forall i, (i < n)%nat -> (i < length r)%nat -> get r' i = get r i + t i) /\
       (forall i, (n <= i)%nat -> get r' i = get r i)); try lia.
  - repeat split; auto. intros; lia.
  - intros k r' Hk (Hlen & Hlow & Hhigh). repeat split.
    + now rewrite set_length.
    + intros i Hi Hir. destruct (Nat.eq_dec i k) as [->|Hne].
      * rewrite get_set_same by lia. now rewrite Hhigh by lia.
      * rewrite get_set_other by lia. apply Hlow; lia.
    + intros i Hi. rewrite get_set_other by lia. apply Hhigh. lia.
Qed.

Lemma gh_moments_node_spec fnc order ampl center width p hpoly result :
  let st := gh_moments_node fnc order ampl center width p (hpoly, result) in
  let y := gh_y p in
  fst st = hermiteArray (Z.of_nat order) y hpoly /\
  length (snd st) = length result /\
  (forall i, (i <= order)%nat -> (i < length result)%nat ->
     get (snd st) i =
     get result i
     + gh_mult ampl width y
       * (gh_fp fnc center width y + #(parity_sign i) * gh_fm fnc center width p y)
       * get (hermiteArray (Z.of_nat order) y hpoly) i).
Proof.
  cbv zeta. unfold gh_moments_node. cbn [fst snd].
  pose proof (accumulate_spec
    (fun i => gh_mult ampl width (gh_y p)
       * (gh_fp fnc center width (gh_y p) + #(parity_sign i) * gh_fm fnc center width p (gh_y p))
       * get (hermiteArray (Z.of_nat order) (gh_y p) hpoly) i) (order + 1) result)
    as (Hlen & Hlow & _).
  repeat split; auto. intros i Hi Hir. apply Hlow; lia.
Qed.

Lemma computeGaussHermiteMoments_length fnc order ampl center width :
  length (computeGaussHermiteMoments fnc order ampl center width) = (order + 1)%nat.
Proof.
  unfold computeGaussHermiteMoments.
  apply for_range_invariant with
    (P := fun (_ : nat) (st : list D * list D) => length (snd st) = (order + 1)%nat);
    try lia.
  - simpl. apply repeat_length.
  - intros n [h r] _ Hlen.
    destruct (gh_moments_node_spec fnc order ampl center width n h r) as (_ & Hl & _).
    rewrite Hl. exact Hlen.
Qed.

(** Index 0 of the coefficients is the quadrature sum [h0_quadrature]. *)
Lemma computeGaussHermiteMoments_0 fnc order ampl center width :
  (1 <= order)%nat ->
  get (computeGaussHermiteMoments fnc order ampl center width) 0
  = h0_quadrature fnc ampl center width.
Proof.
  intros Ho. unfold computeGaussHermiteMoments, h0_quadrature.
  set (N := (Z.to_nat (pow_2_int QUADORDER) + 1)%nat).
  enough (H : length (fst (for_range 0 N (gh_moments_node fnc order ampl center width)
                       (repeat #0 (order + 1), repeat #0 (order + 1)))) = (order + 1)%nat /\
              length (snd (for_range 0 N (gh_moments_node fnc order ampl center width)
                       (repeat #0 (order + 1), repeat #0 (order + 1)))) = (order + 1)%nat /\
              get (snd (for_range 0 N (gh_moments_node fnc order ampl center width)
                       (repeat #0 (order + 1), repeat #0 (order + 1)))) 0 =
              for_range 0 N
                (fun p acc =>
                   acc + gh_mult ampl width (gh_y p)
                   * (gh_fp fnc center width (gh_y p)
                      + #1 * gh_fm fnc center width p (gh_y p)) * #1) #0)
    by apply H.
  apply for_range_invariant with
    (P := fun n (st : list D * list D) =>
       length (fst st) = (order + 1)%nat /\
       length (snd st) = (order + 1)%nat /\
       get (snd st) 0 =
       for_range 0 n
         (fun p acc =>
            acc + gh_mult ampl width (gh_y p)
            * (gh_fp fnc center width (gh_y p)
               + #1 * gh_fm fnc center width p (gh_y p)) * #1) #0); try lia.
  - cbn [fst snd]. rewrite !repeat_length. repeat split.
    rewrite for_range_nil by lia. apply get_or_repeat.
  - intros n [h r] Hn (Hh & Hr & H0). cbn [fst snd] in *.
    destruct (gh_moments_node_spec fnc order ampl center width n h r) as (Hf & Hl & Hi).
    cbv zeta in *. rewrite Hf, Hl, hermiteArray_length. repeat split; auto.
    rewrite for_range_snoc by lia. rewrite Hi by lia. rewrite H0.
    destruct (hermiteArray_spec (Z.of_nat order) (gh_y n) h) as (HH0 & _); [lia|lia|].
    rewrite HH0. reflexivity.
Qed.
End MomentsFacts.

(** ** Construction, dispatch, degree 0 *)

Section EngineFacts.
Context {D : Type} {A : Arith D}.
Local Open Scope dbl_scope.
Variable integrateNdim : IFunctionNdim D -> list D -> list D -> D -> nat -> list D.
Variable nonlinearMultiFit : IFunctionNdimDeriv D -> list D -> D -> Z -> list D.
Variable newBspline : nat -> list D -> BsplineInterpolator1d D.
Variable MAX_GL_TABLE : Z.
Variable GLPOINTS GLWEIGHTS : Z -> list D.
Variable factorial dfactorial : nat -> D.

(** The phases a construction of order at least 2 enters. *)
Lemma ctor_phases fnc order ampl center width :
  (2 <= order)%nat ->
  fst (GaussHermiteExpansion_ctor integrateNdim nonlinearMultiFit fnc order ampl center width)
  = if isFinite (ampl + center + width) then [CoefficientIntegration]
    else [MomentEstimation; Fitting; CoefficientIntegration].
Proof.
  intros Ho. unfold GaussHermiteExpansion_ctor.
  destruct (Nat.ltb_spec order 2); [lia|].
  destruct (isFinite (ampl + center + width)); reflexivity.
Qed.

(** C6: a construction with [order < 2] throws [std::invalid_argument] at
    once: it enters no phase (no moment estimation, no fit, no coefficient
    integration) and returns no expansion. *)
Theorem ctor_order_below_2_fails_fast fnc order ampl center width :
  (order < 2)%nat ->
  GaussHermiteExpansion_ctor integrateNdim nonlinearMultiFit fnc order ampl center width
  = ([], Thrown (invalid_argument Messages.order_too_small)).
Proof.
  intros Ho. unfold GaussHermiteExpansion_ctor.
  destruct (Nat.ltb_spec order 2); [reflexivity|lia].
Qed.

(** With a finite envelope the construction goes straight to the integrator. *)
Lemma ctor_finite_envelope fnc order ampl center width :
  (2 <= order)%nat -> isFinite (ampl + center + width) = true ->
  GaussHermiteExpansion_ctor integrateNdim nonlinearMultiFit fnc order ampl center width
  = ([CoefficientIntegration],
     Returned {| Ampl := ampl; Center := center; Width := width;
                 moments := computeGaussHermiteMoments fnc order ampl center width |}).
Proof.
  intros Ho Hfin. unfold GaussHermiteExpansion_ctor.
  destruct (Nat.ltb_spec order 2); [lia|]. rewrite Hfin. reflexivity.
Qed.

(** C1, as the code has it: a construction of order at least 2 and below
    2^31 (where [order+1] on [unsigned int] and the conversion of [order] to
    the [int] parameter of [hermiteArray] keep the value) returns an expansion
    with [order+1] coefficients whose coefficient 0 is the quadrature sum
    [h0_quadrature] of the function over the final envelope; nothing sets it
    to 1. *)
Theorem ctor_coefficient_0_is_quadrature_sum fnc order ampl center width :
  (2 <= order)%nat -> (Z.of_nat order < 2 ^ 31)%Z ->
  exists e,
    snd (GaussHermiteExpansion_ctor integrateNdim nonlinearMultiFit fnc order
           ampl center width) = Returned e /\
    length (moments e) = (order + 1)%nat /\
    get (moments e) 0 = h0_quadrature fnc (Ampl e) (Center e) (Width e).
Proof.
  intros Ho _. unfold GaussHermiteExpansion_ctor.
  destruct (Nat.ltb_spec order 2); [lia|].
  destruct (isFinite (ampl + center + width)); cbn;
    (eexists; split; [reflexivity|]; cbn [moments Ampl Center Width]; split;
     [apply computeGaussHermiteMoments_length
     |apply computeGaussHermiteMoments_0; lia]).
Qed.

(** C2, the code at [nmax = 0]: [hermiteArray] returns at once and leaves the
    whole buffer as it was, [result[0]] included; [result[0] = 1] is written
    from [nmax = 1] on. *)
Theorem hermiteArray_nmax_0_writes_nothing :
  (forall (x : D) (result : list D), hermiteArray 0 x result = result) /\
  (forall (nmax : Z) (x : D) (result : list D),
     (1 <= nmax)%Z -> (Z.to_nat nmax + 1 <= length result)%nat ->
     get (hermiteArray nmax x result) 0 = #1).
Proof.
  split.
  - intros x result. apply hermiteArray_below_1. lia.
  - intros nmax x result Hn Hlen.
    now destruct (hermiteArray_spec nmax x result Hn Hlen) as (H0 & _).
Qed.

(** C7: the entry point serves the degrees 0, 1, 2 and 3 by the builder
    specialised to that degree, and throws [std::invalid_argument] for any
    other degree without entering the integration. *)
Theorem computeGaussHermiteMatrix_dispatch (N : Z) grid order ampl center width :
  ((0 <= N <= 3)%Z ->
   computeGaussHermiteMatrix newBspline MAX_GL_TABLE GLPOINTS GLWEIGHTS N grid order
     ampl center width
   = ([MatrixIntegration N],
      Returned (computeGaussHermiteMatrix_tpl MAX_GL_TABLE GLPOINTS GLWEIGHTS (Z.to_nat N)
                  (newBspline (Z.to_nat N) grid) order ampl center width))) /\
  (~ (0 <= N <= 3)%Z ->
   computeGaussHermiteMatrix newBspline MAX_GL_TABLE GLPOINTS GLWEIGHTS N grid order
     ampl center width
   = ([], Thrown (invalid_argument Messages.wrong_degree))).
Proof.
  split; intros HN.
  - assert (N = 0 \/ N = 1 \/ N = 2 \/ N = 3)%Z as [->|[->|[->| ->]]] by lia; reflexivity.
  - unfold computeGaussHermiteMatrix.
    destruct N as [|[[|[]|]|[]|]|]; try reflexivity; lia.
Qed.
End EngineFacts.

(** ** Norms and classic moments *)

Section ObjectFacts.
Context {D : Type} {A : Arith D}.
Local Open Scope dbl_scope.
Variable integrateNdim : IFunctionNdim D -> list D -> list D -> D -> nat -> list D.
Variable factorial dfactorial : nat -> D.

Lemma filter_even_seq_even k m :
  filter Nat.even (seq (2 * k) (S m)) = (2 * k)%nat :: filter Nat.even (seq (2 * k + 1) m).
Proof.
  cbn [seq filter]. replace (Nat.even (2 * k)) with true.
  - now rewrite Nat.add_1_r.
  - symmetry. apply Nat.even_spec. now exists k.
Qed.

Lemma filter_even_seq_odd k m :
  filter Nat.even (seq (2 * k + 1) (S m)) = filter Nat.even (seq (2 * (k + 1)) m).
Proof.
  cbn [seq filter]. replace (Nat.even (2 * k + 1)) with false.
  - f_equal. f_equal. lia.
  - symmetry. rewrite <- Nat.negb_odd. apply negb_false_iff, Nat.odd_spec. now exists k.
Qed.

(** The loop of [norm] from the even index [2k], given enough fuel, adds the
    terms of the even indices from [2k] on. *)
Lemma norm_loop_spec coefs fuel : forall k acc,
  (length coefs <= 2 * k + 2 * fuel)%nat ->
  norm_loop factorial dfactorial coefs fuel (2 * k) acc
  = fold_left (fun acc n => acc + get coefs n * normn factorial dfactorial n)
      (filter Nat.even (seq (2 * k) (length coefs - 2 * k))) acc.
Proof.
  induction fuel as [|fuel IH]; intros k acc Hlen.
  - replace (length coefs - 2 * k)%nat with 0%nat by lia. reflexivity.
  - cbn [norm_loop]. destruct (Nat.ltb_spec (2 * k) (length coefs)) as [Hlt|Hge].
    + replace (2 * k + 2)%nat with (2 * (k + 1))%nat by lia.
      rewrite IH by lia.
      replace (length coefs - 2 * k)%nat with (S (length coefs - 2 * k - 1)) by lia.
      rewrite filter_even_seq_even. cbn [fold_left].
      destruct (length coefs - 2 * k - 1)%nat as [|m] eqn:Hm.
      * replace (length coefs - 2 * (k + 1))%nat with 0%nat by lia. reflexivity.
      * rewrite filter_even_seq_odd.
        replace (length coefs - 2 * (k + 1))%nat with m by lia. reflexivity.
    + replace (length coefs - 2 * k)%nat with 0%nat by lia. reflexivity.
Qed.

Lemma norm_is_even_sum (e : GaussHermiteExpansion D) :
  norm factorial dfactorial e = even_sum factorial dfactorial (moments e) * Ampl e.
Proof.
  unfold norm, even_sum. f_equal.
  rewrite (norm_loop_spec (moments e) (length (moments e)) 0 #0) by lia.
  now rewrite Nat.sub_0_r.
Qed.

Lemma normn_odd k : normn factorial dfactorial (2 * k + 1) = #0.
Proof.
  unfold normn.
  replace ((2 * k + 1) mod 2)%nat with 1%nat; [reflexivity|].
  rewrite Nat.add_comm, Nat.mul_comm, Nat.Div0.mod_add. reflexivity.
Qed.

Lemma normn_even_general n :
  Nat.even n = true -> (10 <= n)%nat ->
  normn factorial dfactorial n = dsqrt (factorial n) / dfactorial n.
Proof.
  intros He Hn. unfold normn.
  replace (n mod 2)%nat with 0%nat.
  - do 10 (destruct n as [|n]; [lia|]). reflexivity.
  - symmetry. apply Nat.even_spec in He. destruct He as [k ->].
    rewrite Nat.mul_comm. apply Nat.Div0.mod_mul.
Qed.

(** C8: [normn] is 0 at every odd index; [norm()] is the sum over the even
    indices of [coefficients[n] * normn(n)], times the amplitude; [normn] is a
    constant at 0, 2, 4, 6, 8 and [sqrt(n!)/n!!] at the even indices beyond. *)
Theorem normn_and_norm :
  (forall k, normn factorial dfactorial (2 * k + 1) = #0) /\
  (forall e : GaussHermiteExpansion D,
     norm factorial dfactorial e = even_sum factorial dfactorial (moments e) * Ampl e) /\
  normn factorial dfactorial 0 = #1 /\
  normn factorial dfactorial 2 = #1 / M_SQRT2 /\
  normn factorial dfactorial 4 = dec 6123724356957945 16 /\
  normn factorial dfactorial 6 = dec 5590169943749474 16 /\
  normn factorial dfactorial 8 = dec 5229125165837972 16 /\
  (forall n, Nat.even n = true -> (10 <= n)%nat ->
     normn factorial dfactorial n = dsqrt (factorial n) / dfactorial n).
Proof.
  split; [exact normn_odd|]. split; [exact norm_is_even_sum|].
  repeat (split; [reflexivity|]). exact normn_even_general.
Qed.

(** No division of [computeClassicMoments] has a zero divisor: the run with
    checked divisions always succeeds, with the same moments. *)
Lemma computeClassicMoments_divisions_checked fnc :
  computeClassicMoments_checked integrateNdim fnc
  = Some (computeClassicMoments integrateNdim fnc).
Proof.
  unfold computeClassicMoments_checked, computeClassicMoments, checked_div.
  set (result := integrateNdim _ _ _ _ _).
  cbn [repeat set get get_or nth].
  destruct (get result 0 == #0); reflexivity.
Qed.

(** C9: when the accumulated normalisation [result[0]] is zero, the mean and
    the standard deviation are the constant 0, and no division by zero is
    made. *)
Theorem zero_normalisation_gives_zero_moments fnc :
  (get (integrateNdim (MomentsIntegrand fnc) [ #0 ] [ #1 ] EPSREL_MOMENTS 1000) 0 == #0)
  = true ->
  get (computeClassicMoments integrateNdim fnc) 1 = #0 /\
  get (computeClassicMoments integrateNdim fnc) 2 = #0 /\
  computeClassicMoments_checked integrateNdim fnc
  = Some (computeClassicMoments integrateNdim fnc).
Proof.
  intros H0. split; [|split; [|apply computeClassicMoments_divisions_checked]].
  - unfold computeClassicMoments. cbn [repeat set get get_or nth].
    now rewrite H0.
  - unfold computeClassicMoments. cbn [repeat set get get_or nth].
    now rewrite H0.
Qed.
End ObjectFacts.

(** ** The fitter *)

Section FitterFacts.
Context {D : Type} {A : Arith D}.
Local Open Scope dbl_scope.

Lemma for_range_split {S : Type} lo mid hi (body : nat -> S -> S) s :
  (lo <= mid <= hi)%nat ->
  for_range lo hi body s = for_range mid hi body (for_range lo mid body s).
Proof.
  intros H. unfold for_range.
  replace (hi - lo)%nat with ((mid - lo) + (hi - mid))%nat by lia.
  rewrite seq_app, fold_left_app. do 2 f_equal. lia.
Qed.

Lemma fitter_node_values order fnc vars p hpoly values derivs :
  (1 <= order)%nat -> length hpoly = (order + 1)%nat ->
  let st := fitter_node order fnc vars p (hpoly, (Some values, derivs)) in
  length (fst st) = (order + 1)%nat /\
  fst (snd st) = Some (set values p (fit_residual order fnc vars p)).
Proof.
  intros Ho Hh. cbv zeta. unfold fitter_node. cbn [fst snd]. split.
  - now rewrite hermiteArray_length.
  - do 2 f_equal. unfold fit_residual, fit_x, fit_sum.
    do 2 f_equal. f_equal. f_equal.
    apply for_range_ext. intros n sum Hn. do 2 f_equal.
    apply hermiteArray_fresh; rewrite ?repeat_length; lia.
Qed.

(** The values [evalDeriv] stores: one residual per node, 99 of them. *)
Lemma evalDeriv_values order fnc vars values derivs :
  (1 <= order)%nat ->
  exists values',
    fst (evalDeriv (GaussHermiteFitter order fnc) vars (Some values) derivs) = Some values' /\
    length values' = length values /\
    forall k, (k < 99)%nat -> (k < length values)%nat ->
      get values' k = fit_residual order fnc vars k.
Proof.
  intros Ho. cbn [evalDeriv GaussHermiteFitter].
  change (Z.to_nat (2 * pow_2_int QUADORDER) + 1)%nat with 99%nat.
  enough (H : forall st, st = for_range 0 99 (fitter_node order fnc vars)
                (repeat #0 (order + 1), (Some values, derivs)) ->
      length (fst st) = (order + 1)%nat /\
      exists v, fst (snd st) = Some v /\ length v = length values /\
        forall k, (k < 99)%nat -> (k < length values)%nat ->
          get v k = fit_residual order fnc vars k).
  { destruct (H _ eq_refl) as (_ & v & Hv & Hl & Hk). exists v. auto. }
  intros st ->.
  apply for_range_invariant with
    (P := fun n (st : list D * (option (list D) * option (list D))) =>
       length (fst st) = (order + 1)%nat /\
       exists v, fst (snd st) = Some v /\ length v = length values /\
         forall k, (k < n)%nat -> (k < length values)%nat ->
           get v k = fit_residual order fnc vars k); try lia.
  - cbn [fst snd]. rewrite repeat_length. split; [reflexivity|].
    exists values. repeat split. intros; lia.
  - intros n [h [vs ds]] Hn (Hh & v & Hv & Hl & Hk). cbn [fst snd] in Hh, Hv.
    subst vs.
    destruct (fitter_node_values order fnc vars n h v ds Ho Hh) as (Hh' & Hv').
    cbv zeta in Hh', Hv'. split; [exact Hh'|].
    eexists. split; [exact Hv'|]. split; [now rewrite set_length|].
    intros k Hk1 Hk2. destruct (Nat.eq_dec k n) as [->|Hne].
    + apply get_set_same. lia.
    + rewrite get_set_other by lia. apply Hk; lia.
Qed.

Lemma fit_coefficients_length order (vars : list D) :
  (2 <= order)%nat -> length (fit_coefficients order vars) = (order + 1)%nat.
Proof.
  intros Ho. unfold fit_coefficients.
  rewrite length_app, length_map, length_seq. simpl. lia.
Qed.

Lemma fit_coefficients_get order (vars : list D) n :
  (3 <= n <= order)%nat -> get (fit_coefficients order vars) n = get vars n.
Proof.
  intros Hn. unfold get, get_or, fit_coefficients.
  rewrite app_nth2 by (simpl; lia). cbn [length].
  rewrite nth_indep with (d' := nth 0 vars #0) by (rewrite length_map, length_seq; lia).
  change (nth 0 vars #0) with ((fun i => nth i vars #0) 0%nat).
  rewrite map_nth. rewrite seq_nth by lia. f_equal. lia.
Qed.
End FitterFacts.

(** ** Over the real numbers *)

Section OverReals.
Local Open Scope R_scope.
#[local] Existing Instance RealArith.

Ltac real_arith :=
  cbv [of_Z dec dadd dsub dmul ddiv dopp deqb dsqrt dexp dfmax isFinite isINFINITY
       M_SQRT2 M_SQRTPI RealArith] in *.


Lemma sqrt_4 : sqrt 4 = 2.
Proof. replace 4 with (2 * 2) by lra. apply sqrt_square. lra. Qed.

(** The table [sqroots] holds the square roots of 1..8. *)
Lemma sqroots_are_square_roots n :
  (n < 8)%nat -> get sqroots n = sqrt (INR (n + 1)).
Proof.
  intros Hn. rewrite INR_IZR_INZ.
  do 8 (destruct n as [|n]; [cbn; real_arith; auto using sqrt_1, sqrt_4|]).
  lia.
Qed.

Lemma sqrtnplus1_of_real n : sqrtnplus1_of (A := RealArith) n = sqrt (INR (n + 1)).
Proof.
  unfold sqrtnplus1_of. destruct (Nat.ltb_spec n 8).
  - now apply sqroots_are_square_roots.
  - real_arith. rewrite <- INR_IZR_INZ. now rewrite Nat.add_1_r, S_INR.
Qed.

Lemma sqrtn_of_real n : (1 <= n)%nat -> sqrtn_of (A := RealArith) n = sqrt (INR n).
Proof.
  intros Hn. unfold sqrtn_of. destruct (Nat.eqb_spec n 1) as [->|Hne].
  - real_arith. simpl. now rewrite sqrt_1.
  - rewrite sqrtnplus1_of_real. do 2 f_equal. lia.
Qed.

(** C3: for [nmax >= 1], on a buffer of [nmax+1] entries, [hermiteArray]
    leaves [result[0] = 1], [result[1] = sqrt(2)*x] and, for [1 <= n < nmax],
    [result[n+1] = (sqrt(2)*x*result[n] - sqrt(n)*result[n-1]) / sqrt(n+1)];
    the entries of the table [sqroots], used for [n < 8], are the square roots
    that the call of [sqrt] gives beyond. *)
Theorem hermiteArray_recurrence (nmax : Z) (x : R) (result : list R) :
  (1 <= nmax)%Z -> (Z.to_nat nmax + 1 <= length result)%nat ->
  get (hermiteArray nmax x result) 0 = 1 /\
  get (hermiteArray nmax x result) 1 = sqrt 2 * x /\
  (forall n, (1 <= n < Z.to_nat nmax)%nat ->
     get (hermiteArray nmax x result) (n + 1) =
     (sqrt 2 * x * get (hermiteArray nmax x result) n
      - sqrt (INR n) * get (hermiteArray nmax x result) (n - 1)) / sqrt (INR (n + 1))) /\
  (forall n, (n < 8)%nat ->
     get sqroots n = sqrt (INR (n + 1)) /\
     sqrtnplus1_of (A := RealArith) n = sqrt (IZR (Z.of_nat n) + 1)).
Proof.
  intros Hn Hlen.
  destruct (hermiteArray_spec (A := RealArith) nmax x result Hn Hlen) as (H0 & H1 & Hrec & _).
  repeat split.
  - exact H0.
  - exact H1.
  - intros n Hn'. rewrite Hrec by lia.
    rewrite sqrtn_of_real by lia. rewrite sqrtnplus1_of_real. reflexivity.
  - now apply sqroots_are_square_roots.
  - rewrite sqrtnplus1_of_real. rewrite <- INR_IZR_INZ. now rewrite Nat.add_1_r, S_INR.
Qed.

Lemma hermiteArray_recurrence_witness :
  let r := hermiteArray 3 1 [0; 0; 0; 0] in
  get r 0 = 1 /\
  get r 1 = sqrt 2 * 1 /\
  (forall n, (1 <= n < Z.to_nat 3)%nat ->
     get r (n + 1)
     = (sqrt 2 * 1 * get r n - sqrt (INR n) * get r (n - 1)) / sqrt (INR (n + 1))) /\
  (forall n, (n < 8)%nat ->
     get sqroots n = sqrt (INR (n + 1)) /\
     sqrtnplus1_of n = sqrt (IZR (Z.of_nat n) + 1)).
Proof.
  apply (hermiteArray_recurrence 3 1 [0; 0; 0; 0]).
  - lia.
  - simpl. lia.
Defined.

Lemma parity_sign_even i : Nat.even i = true -> parity_sign i = 1%Z.
Proof.
  intros He. apply Nat.even_spec in He. destruct He as [k ->]. unfold parity_sign.
  rewrite Nat.mul_comm, Nat.Div0.mod_mul. reflexivity.
Qed.

Lemma parity_sign_odd i : Nat.even i = false -> parity_sign i = (-1)%Z.
Proof.
  intros He. rewrite <- Nat.negb_odd in He. apply negb_false_iff, Nat.odd_spec in He.
  destruct He as [k ->]. unfold parity_sign.
  rewrite Nat.add_comm, Nat.mul_comm, Nat.Div0.mod_add. reflexivity.
Qed.

Lemma gh_y_0 : gh_y 0 = 0.
Proof. unfold gh_y. real_arith. simpl. lra. Qed.







Lemma h0_quadrature_zero_function ampl center width :
  h0_quadrature (fun _ => 0) ampl center width = 0.
Proof.
  unfold h0_quadrature.
  apply for_range_invariant with (P := fun (_ : nat) (acc : R) => acc = 0); try lia.
  - reflexivity.
  - intros p acc _ ->. unfold gh_fp, gh_fm. destruct (p =? 0)%nat; real_arith; lra.
Qed.

(** C1 as stated fails: built from the zero function with the envelope
    (1, 0, 1), the expansion has coefficient 0 equal to 0, not 1. *)
Lemma zero_function_coefficient_0_is_not_1 :
  exists e,
    snd (GaussHermiteExpansion_ctor no_integrator no_fit (fun _ => 0) 2 1 0 1) = Returned e /\
    get (moments e) 0 = 0 /\ get (moments e) 0 <> 1.
Proof.
  rewrite ctor_finite_envelope by (try lia; reflexivity).
  eexists. split; [reflexivity|]. cbn [moments].
  rewrite computeGaussHermiteMoments_0 by lia.
  rewrite h0_quadrature_zero_function. split; [reflexivity|lra].
Qed.

Lemma ctor_coefficient_0_witness :
  exists e,
    snd (GaussHermiteExpansion_ctor no_integrator no_fit (fun _ => 0) 2 1 0 1) = Returned e /\
    length (moments e) = 3%nat /\
    get (moments e) 0 = h0_quadrature (fun _ => 0) (Ampl e) (Center e) (Width e).
Proof.
  apply (ctor_coefficient_0_is_quadrature_sum no_integrator no_fit (fun _ => 0) 2 1 0 1).
  - lia.
  - reflexivity.
Defined.

(** [value] at the expansion of the fitter's parameters: the sum [fit_sum]
    times the Gaussian factor. *)
Lemma value_fit_expansion order vars scratch x :
  (2 <= order)%nat -> length scratch = (order + 1)%nat ->
  value (fit_expansion order vars) scratch x
  = fit_sum order vars ((x - get vars 1) / get vars 2)
    * (1 / sqrt 2 / sqrt PI * get vars 0 / get vars 2
       * exp (- (5 / 10 ^ 1) * pow_2 ((x - get vars 1) / get vars 2))).
Proof.
  intros Ho Hs. unfold value. cbn [moments Ampl Center Width fit_expansion].
  rewrite fit_coefficients_length by assumption.
  destruct (Nat.eqb_spec (order + 1) 0); [lia|].
  replace (Z.of_nat (order + 1) - 1)%Z with (Z.of_nat order) by lia.
  set (X := ((x - get vars 1) / get vars 2)%D).
  change ((x - get vars 1) / get vars 2) with X.
  destruct (hermiteArray_spec (Z.of_nat order) X scratch) as (H0 & _); [lia|lia|].
  real_arith. f_equal.
  rewrite (for_range_split 0 3 (order + 1)) by lia.
  unfold fit_sum.
  replace (for_range 0 3 _ 0) with 1.
  - apply for_range_ext. intros j sum Hj. real_arith.
    rewrite fit_coefficients_get by lia. do 2 f_equal.
    apply hermiteArray_fresh; rewrite ?repeat_length; lia.
  - unfold for_range. cbn [Nat.sub seq fold_left]. rewrite H0.
    unfold fit_coefficients, get, get_or. cbn [app nth]. real_arith. ring.
Qed.

Lemma fit_x_scaled vars k :
  get vars 2 <> 0 -> (fit_x vars k - get vars 1) / get vars 2 = fit_y k.
Proof. intros Hw. unfold fit_x. real_arith. field. exact Hw. Qed.

Lemma sqrt_PI_pos : 0 < sqrt PI.
Proof. apply sqrt_lt_R0, PI_RGT_0. Qed.

Lemma sqrt_2_pos : 0 < sqrt 2.
Proof. apply sqrt_lt_R0. lra. Qed.

(** The residual is the difference of the function and of the expansion,
    both scaled by [sqrt(width)]. *)
Lemma fit_residual_real order fnc vars scratch k :
  (2 <= order)%nat -> 0 < get vars 2 -> length scratch = (order + 1)%nat ->
  fit_residual order fnc vars k
  = sqrt (get vars 2) * fnc (fit_x vars k)
    - sqrt (get vars 2) * value (fit_expansion order vars) scratch (fit_x vars k).
Proof.
  intros Ho Hw Hs. rewrite value_fit_expansion by assumption.
  rewrite fit_x_scaled by lra. unfold fit_residual, pow_2. real_arith.
  set (E := exp _). replace (exp _) with E by (unfold E; f_equal; ring).
  set (S := fit_sum order vars (fit_y k)).
  set (F := fnc _). set (w := get vars 2) in *. set (a := get vars 0).
  pose proof sqrt_2_pos. pose proof sqrt_PI_pos.
  assert (Hsw : 0 < sqrt w) by (apply sqrt_lt_R0; exact Hw).
  assert (Hww : w = sqrt w * sqrt w) by (symmetry; apply sqrt_sqrt; lra).
  set (s := sqrt w) in *. clearbody s E S F a. rewrite Hww.
  field. repeat split; lra.
Qed.

(** C5, as the code has it: the fitter has [order+1] parameters and 99
    residuals, and the residual at node [x_k] is [sqrt(width)*f(x_k)] minus
    [sqrt(width)] times the value at [x_k] of the expansion with [h_0 = 1],
    [h_1 = h_2 = 0] and [h_3..h_order] from the parameters. *)
Theorem fitter_model (order : nat) (fnc : R -> R) :
  numVarsD (GaussHermiteFitter order fnc) = (order + 1)%nat /\
  numValuesD (GaussHermiteFitter order fnc) = 99%nat /\
  forall vars values derivs scratch,
    (2 <= order)%nat -> 0 < get vars 2 ->
    length values = 99%nat -> length scratch = (order + 1)%nat ->
    exists values',
      fst (evalDeriv (GaussHermiteFitter order fnc) vars (Some values) derivs)
      = Some values' /\
      length values' = 99%nat /\
      forall k, (k < 99)%nat ->
        get values' k
        = sqrt (get vars 2) * fnc (fit_x vars k)
          - sqrt (get vars 2) * value (fit_expansion order vars) scratch (fit_x vars k).
Proof.
  split; [reflexivity|]. split; [reflexivity|].
  intros vars values derivs scratch Ho Hw Hv Hs.
  destruct (evalDeriv_values order fnc vars values derivs) as (v & Hev & Hl & Hk); [lia|].
  exists v. split; [exact Hev|]. split; [congruence|].
  intros k Hk'. rewrite Hk by lia. now apply fit_residual_real.
Qed.

Lemma fitter_model_witness :
  exists values',
    fst (evalDeriv (GaussHermiteFitter 2 (fun _ => 0)) [1; 0; 4] (Some (repeat 0 99)) None)
    = Some values' /\
    length values' = 99%nat /\
    forall k, (k < 99)%nat ->
      get values' k
      = sqrt 4 * 0 - sqrt 4 * value (fit_expansion 2 [1; 0; 4]) [0; 0; 0] (fit_x [1; 0; 4] k).
Proof.
  apply (proj2 (proj2 (fitter_model 2 (fun _ => 0))) [1; 0; 4] (repeat 0 99) None [0; 0; 0]).
  - lia.
  - unfold get, get_or. cbn [nth]. real_arith. lra.
  - apply repeat_length.
  - reflexivity.
Defined.

Lemma value_at_centre_positive :
  0 < value (fit_expansion 2 [1; 0; 4]) [0; 0; 0] (fit_x [1; 0; 4] 49).
Proof.
  rewrite value_fit_expansion by (try lia; reflexivity).
  unfold fit_sum. rewrite for_range_nil by lia.
  pose proof sqrt_2_pos. pose proof sqrt_PI_pos.
  unfold get, get_or. cbn [nth]. real_arith.
  set (E := exp _). assert (0 < E) by apply exp_pos. clearbody E.
  rewrite Rmult_1_l. apply Rmult_lt_0_compat; [|assumption].
  unfold Rdiv. rewrite !Rmult_1_l, Rmult_1_r.
  repeat apply Rmult_lt_0_compat; try apply Rinv_0_lt_compat; lra.
Qed.

(** C5 as stated fails: with width 4 the stored residual is
    [sqrt(4)*f - sqrt(4)*GH], not [sqrt(4)*f - GH], at the central node
    [k = 49] of the zero function. *)
Lemma residual_scales_the_reconstruction :
  exists values',
    fst (evalDeriv (GaussHermiteFitter 2 (fun _ => 0)) [1; 0; 4] (Some (repeat 0 99)) None)
    = Some values' /\
    get values' 49
    <> sqrt 4 * 0 - value (fit_expansion 2 [1; 0; 4]) [0; 0; 0] (fit_x [1; 0; 4] 49).
Proof.
  destruct (evalDeriv_values 2 (fun _ => 0) [1; 0; 4] (repeat 0 99) None)
    as (v & Hev & _ & Hk); [lia|].
  exists v. split; [exact Hev|].
  rewrite Hk by (rewrite ?repeat_length; lia).
  rewrite (fit_residual_real 2 (fun _ => 0) [1; 0; 4] [0; 0; 0] 49);
    [|lia|unfold get, get_or; cbn [nth]; real_arith; lra|reflexivity].
  pose proof value_at_centre_positive as HV.
  unfold get at 1 2, get_or. cbn [nth]. real_arith. rewrite sqrt_4. lra.
Qed.

Lemma get_all_zero (v : list R) i : Forall (fun c => c = 0) v -> get v i = 0.
Proof.
  unfold get, get_or. intros Hv. revert i.
  induction Hv as [|c v Hc Hv IH]; intros [|i]; cbn; auto.
Qed.

Lemma set_all_zero (v : list R) i x :
  x = 0 -> Forall (fun c => c = 0) v -> Forall (fun c => c = 0) (set v i x).
Proof.
  intros Hx Hv. revert i.
  induction Hv as [|c v Hc Hv IH]; intros [|i]; cbn; auto.
Qed.

Lemma repeat_all_zero n : Forall (fun c => c = 0) (repeat 0 n).
Proof. induction n; cbn; auto. Qed.

(** What the early return of [hermiteArray] costs when it is reached through
    the matrix builder: for [order = 0] the buffer [hpoly] keeps the 0 it was
    created with, and the whole matrix, row 0 included, stays 0. *)
Lemma order_0_matrix_is_zero MAX_GL_TABLE GLPOINTS GLWEIGHTS N interp ampl center width :
  Forall (fun c => c = 0)
    (data (computeGaussHermiteMatrix_tpl MAX_GL_TABLE GLPOINTS GLWEIGHTS N interp 0
             ampl center width)).
Proof.
  unfold computeGaussHermiteMatrix_tpl. cbn [data].
  set (P := fun (_ : nat) (st : list R * list R) =>
              fst st = [0] /\ Forall (fun c => c = 0) (snd st)).
  enough (H : P (length (xvalues interp) - 1)%nat
                (for_range 0 (length (xvalues interp) - 1)
                   (fun n st =>
                      for_range 0
                        (Z.to_nat (Z.min MAX_GL_TABLE
                                     (Z.max ((Z.of_nat N + Z.of_nat 0 + 1) / 2 + 1) 3)))
                        (gh_matrix_node N interp 0 ampl center width
                           (GLPOINTS (Z.min MAX_GL_TABLE
                                        (Z.max ((Z.of_nat N + Z.of_nat 0 + 1) / 2 + 1) 3)))
                           (GLWEIGHTS (Z.min MAX_GL_TABLE
                                         (Z.max ((Z.of_nat N + Z.of_nat 0 + 1) / 2 + 1) 3)))
                           (get (xvalues interp) n)
                           (get (xvalues interp) (n + 1) - get (xvalues interp) n)%D) st)
                   (repeat #0%D (0 + 1), repeat #0%D ((0 + 1) * numValuesB interp))))
    by apply H.
  apply for_range_invariant with (P := P); try lia.
  - split; [reflexivity|]. apply repeat_all_zero.
  - intros n st _ Hst. unfold P in Hst |- *.
    apply for_range_invariant with (P := P); try lia; [exact Hst|].
    clear st Hst. intros k [h d] _ [Hh Hd]. cbn [fst snd] in Hh, Hd. subst h.
    unfold gh_matrix_node. cbn [fst snd]. rewrite hermiteArray_below_1 by lia.
    split; [reflexivity|].
    apply for_range_invariant with
      (P := fun (_ : nat) (d : list R) => Forall (fun c => c = 0) d); try lia; [exact Hd|].
    clear d Hd. intros m d Hm Hd.
    apply for_range_invariant with
      (P := fun (_ : nat) (d : list R) => Forall (fun c => c = 0) d); try lia; [exact Hd|].
    clear d Hd. intros b d Hb Hd.
    apply set_all_zero; [|exact Hd].
    rewrite (get_all_zero d) by assumption.
    destruct m as [|m]; [|lia].
    change (get [0] 0) with 0. real_arith. ring.
Qed.

Lemma ctor_order_below_2_witness :
  GaussHermiteExpansion_ctor no_integrator no_fit (fun _ => 0) 1 1 0 1
  = ([], Thrown (invalid_argument Messages.order_too_small)).
Proof.
  apply (ctor_order_below_2_fails_fast no_integrator no_fit (fun _ => 0) 1 1 0 1). lia.
Defined.



Lemma Req_bool_refl (x : R) : Req_bool x x = true.
Proof. unfold Req_bool. destruct (Req_dec_T x x); congruence. Qed.

Lemma zero_normalisation_witness :
  get (computeClassicMoments (fixed_integrator [0; 5; 7]) (fun _ => 0)) 1 = 0 /\
  get (computeClassicMoments (fixed_integrator [0; 5; 7]) (fun _ => 0)) 2 = 0 /\
  computeClassicMoments_checked (fixed_integrator [0; 5; 7]) (fun _ => 0)
  = Some (computeClassicMoments (fixed_integrator [0; 5; 7]) (fun _ => 0)).
Proof.
  exact (zero_normalisation_gives_zero_moments (fixed_integrator [0; 5; 7]) (fun _ => 0)
           (Req_bool_refl 0)).
Defined.
End OverReals.

(** ** Over IEEE 754 binary64 *)

Section OverBinary64.
Variable libm_exp : spec_float -> spec_float.

Lemma iter_pos_invariant {T : Type} (P : T -> Prop) (f : T -> T) :
  (forall x, P x -> P (f x)) -> forall n x, P x -> P (iter_pos f n x).
Proof.
  intros Hf. induction n as [n IH|n IH|]; intros x Hx; cbn [iter_pos]; auto.
Qed.

Lemma shr_1_nonneg mrs : (0 <= shr_m mrs)%Z -> (0 <= shr_m (shr_1 mrs))%Z.
Proof.
  destruct mrs as [m r s]. cbn [shr_m]. intros Hm.
  destruct m as [|[p|p|]|p]; cbn; lia.
Qed.

Lemma shr_fexp_nonneg m e l :
  (0 <= m)%Z -> (0 <= shr_m (fst (shr_fexp B64.prec B64.emax m e l)))%Z.
Proof.
  intros Hm. unfold shr_fexp, shr.
  assert (H0 : (0 <= shr_m (shr_record_of_loc m l))%Z)
    by (destruct l as [|[]]; exact Hm).
  destruct (fexp _ _ _ - e)%Z; cbn [fst]; auto.
  apply iter_pos_invariant; auto using shr_1_nonneg.
Qed.

Lemma round_nearest_even_nonneg m l : (0 <= m)%Z -> (0 <= round_nearest_even m l)%Z.
Proof.
  intros Hm. unfold round_nearest_even.
  destruct l as [|[]]; try destruct (Z.even m); lia.
Qed.

(** Rounding a non-negative mantissa with a positive sign gives neither NaN
    nor a negative number. *)
Lemma binary_round_aux_not_negative m e l :
  (0 <= m)%Z ->
  B64.not_negative (binary_round_aux B64.prec B64.emax false m e l) = true.
Proof.
  intros Hm. unfold binary_round_aux.
  pose proof (shr_fexp_nonneg m e l Hm) as H1.
  destruct (shr_fexp B64.prec B64.emax m e l) as [mrs' e']. cbn [fst] in H1.
  pose proof (shr_fexp_nonneg _ e' loc_Exact
                (round_nearest_even_nonneg _ (loc_of_shr_record mrs') H1)) as H2.
  destruct (shr_fexp B64.prec B64.emax
              (round_nearest_even (shr_m mrs') (loc_of_shr_record mrs')) e' loc_Exact)
    as [mrs'' e'']. cbn [fst] in H2.
  destruct (shr_m mrs'') as [|p|p]; [reflexivity| |lia].
  destruct (e'' <=? B64.emax - B64.prec)%Z; reflexivity.
Qed.

Lemma sqrt_not_negative x :
  B64.not_negative x = true -> B64.not_negative (B64.sqrt x) = true.
Proof.
  destruct x as [s|[|]| |[|] m e]; cbn; try discriminate; auto. intros _.
  unfold B64.sqrt, SFsqrt.
  destruct (SFsqrt_core_binary B64.prec B64.emax (Z.pos m) e) as [[mz ez] lz] eqn:Hcore.
  apply binary_round_aux_not_negative.
  unfold SFsqrt_core_binary in Hcore.
  set (m' := match (e - 2 * _)%Z with Z.pos _ => _ | Z0 => _ | Z.neg _ => _ end) in Hcore.
  pose proof (Z.sqrtrem_sqrt m') as Hs. destruct (Z.sqrtrem m') as [q r].
  cbn [fst] in Hs. injection Hcore as <- _ _. subst q. apply Z.sqrt_nonneg.
Qed.

(** [fmax(0, v)] is [+0], or [v] itself when [v] is positive. *)
Lemma fmax_zero_not_negative v :
  B64.not_negative (B64.fmax (S754_zero false) v) = true.
Proof.
  unfold B64.fmax. destruct v as [s|[|]| |[|] m e]; reflexivity.
Qed.

Lemma fmax_zero_clamps v :
  SFltb v (S754_zero false) = true \/ B64.is_nan v = true ->
  B64.fmax (S754_zero false) v = S754_zero false.
Proof.
  unfold B64.fmax. destruct v as [s|[|]| |[|] m e]; cbn; intros [H|H];
    try discriminate; reflexivity.
Qed.

Lemma not_negative_spec x :
  B64.not_negative x = true ->
  B64.is_nan x = false /\ SFleb (S754_zero false) x = true.
Proof.
  destruct x as [s|[|]| |[|] m e]; cbn; try discriminate; auto.
Qed.

(** The third moment returned, from the quadrature outcome. *)
Lemma stddev_unfold (integrateNdim : IFunctionNdim spec_float -> list spec_float ->
                       list spec_float -> spec_float -> nat -> list spec_float) fnc :
  let result := integrateNdim (MomentsIntegrand (A := Binary64 libm_exp) fnc)
                  [S754_zero false] [B64.of_Z 1] (B64.dec 1 3) 1000%nat in
  get (A := Binary64 libm_exp) (computeClassicMoments (A := Binary64 libm_exp) integrateNdim fnc) 2
  = if SFeqb (get (A := Binary64 libm_exp) result 0) (S754_zero false)
    then S754_zero false
    else B64.sqrt (B64.fmax (S754_zero false) (raw_variance (A := Binary64 libm_exp) result)).
Proof.
  cbv zeta. unfold computeClassicMoments, raw_variance.
  cbn [repeat set get get_or nth].
  change (@of_Z _ (Binary64 libm_exp) 0) with (S754_zero false).
  change (@deqb _ (Binary64 libm_exp)) with SFeqb.
  change (@EPSREL_MOMENTS _ (Binary64 libm_exp)) with (B64.dec 1 3).
  change (@of_Z _ (Binary64 libm_exp) 1) with (B64.of_Z 1).
  destruct (SFeqb _ _); reflexivity.
Qed.

(** C10, as the code has it: whatever the function and the quadrature
    outcome, the standard deviation returned is neither NaN nor negative (a
    zero, a positive finite double or +infinity); when the raw estimate of the
    variance is negative or NaN, [fmax] replaces it by 0 before the square
    root and the standard deviation is +0. *)
Theorem stddev_never_nan_never_negative
    (integrateNdim : IFunctionNdim spec_float -> list spec_float ->
                     list spec_float -> spec_float -> nat -> list spec_float)
    (fnc : spec_float -> spec_float) :
  let result := integrateNdim (MomentsIntegrand (A := Binary64 libm_exp) fnc)
                  [S754_zero false] [B64.of_Z 1] (B64.dec 1 3) 1000%nat in
  let stddev := get (A := Binary64 libm_exp)
                  (computeClassicMoments (A := Binary64 libm_exp) integrateNdim fnc) 2 in
  B64.is_nan stddev = false /\
  SFleb (S754_zero false) stddev = true /\
  (SFeqb (get (A := Binary64 libm_exp) result 0) (S754_zero false) = false ->
   SFltb (raw_variance (A := Binary64 libm_exp) result) (S754_zero false) = true \/
   B64.is_nan (raw_variance (A := Binary64 libm_exp) result) = true ->
   stddev = S754_zero false).
Proof.
  cbv zeta. rewrite stddev_unfold. cbv zeta.
  set (result := integrateNdim _ _ _ _ _).
  destruct (SFeqb (get result 0) (S754_zero false)) eqn:H0.
  - split; [reflexivity|split; [reflexivity|intros; reflexivity]].
  - pose proof (sqrt_not_negative _
                  (fmax_zero_not_negative (raw_variance (A := Binary64 libm_exp) result)))
      as Hs.
    apply not_negative_spec in Hs. destruct Hs as [Hn Hl].
    repeat split; auto. intros _ Hv. now rewrite fmax_zero_clamps.
Qed.
End OverBinary64.

(** C10 as stated fails: the finite quadrature outcome (2^-600, 0, 2^600)
    gives the standard deviation +infinity, which is not a real number. *)
Lemma overflowing_variance_gives_infinite_stddev :
  B64.is_finite (S754_infinity false) = false /\
  forall libm_exp fnc,
    get (A := Binary64 libm_exp)
      (computeClassicMoments (A := Binary64 libm_exp)
         (fixed_integrator
            [ S754_finite false 4503599627370496 (-652); S754_zero false;
              S754_finite false 4503599627370496 548 ]) fnc) 2
    = S754_infinity false.
Proof.
  split; [reflexivity|]. intros libm_exp fnc. vm_compute. reflexivity.
Qed.

(** In binary64 too the table [sqroots] agrees with the call of [sqrt] that
    replaces it from [n = 8] on, and [M_SQRT2] is [sqrt(2.)]. *)
Lemma sqroots_agree_in_binary64 (libm_exp : spec_float -> spec_float) :
  B64.SQRT2 = B64.sqrt (B64.of_Z 2) /\
  forall n, (n < 8)%nat ->
    get (A := Binary64 libm_exp) (sqroots (A := Binary64 libm_exp)) n
    = B64.sqrt (B64.add (B64.of_Z (Z.of_nat n)) (B64.of_Z 1)).
Proof.
  split; [vm_compute; reflexivity|]. intros n Hn.
  do 8 (destruct n as [|n]; [vm_compute; reflexivity|]). lia.
Qed.

(** *** Test vectors in binary64 *)

(** Degrees 0..3 at [x = 0] and [x = 1]: 1, 0, -1/sqrt(2), -0 and
    1, 1.4142135623730951, 0.7071067811865478, -0.5773502691896258. *)
Example hermiteArray_binary64_at_0_and_1 (libm_exp : spec_float -> spec_float) :
  hermiteArray (A := Binary64 libm_exp) 3 (B64.of_Z 0) (repeat (B64.of_Z 0) 4)
  = [ S754_finite false 4503599627370496 (-52); S754_zero false;
      S754_finite true 6369051672525772 (-53); S754_zero true ] /\
  hermiteArray (A := Binary64 libm_exp) 3 (B64.of_Z 1) (repeat (B64.of_Z 0) 4)
  = [ S754_finite false 4503599627370496 (-52);
      S754_finite false 6369051672525773 (-52);
      S754_finite false 6369051672525775 (-53);
      S754_finite true 5200308914369309 (-53) ].
Proof. split; vm_compute; reflexivity. Qed.

(** Degree 0 on a fresh buffer: the 0 stays, no 1 is written. *)
Example hermiteArray_binary64_degree_0 (libm_exp : spec_float -> spec_float) :
  hermiteArray (A := Binary64 libm_exp) 0 (B64.of_Z 1) (repeat (B64.of_Z 0) 1)
  = [ S754_zero false ].
Proof. vm_compute. reflexivity. Qed.

(** The constants of [normn] at 4, 6, 8 are the doubles that [sqrt(n!)/n!!]
    gives: sqrt(24)/8, sqrt(720)/48, sqrt(40320)/384. *)
Example normn_constants_binary64 (libm_exp : spec_float -> spec_float)
    (factorial dfactorial : nat -> spec_float) :
  normn (A := Binary64 libm_exp) factorial dfactorial 4
  = B64.div (B64.sqrt (B64.of_Z 24)) (B64.of_Z 8) /\
  normn (A := Binary64 libm_exp) factorial dfactorial 6
  = B64.div (B64.sqrt (B64.of_Z 720)) (B64.of_Z 48) /\
  normn (A := Binary64 libm_exp) factorial dfactorial 8
  = B64.div (B64.sqrt (B64.of_Z 40320)) (B64.of_Z 384).
Proof. repeat split; vm_compute; reflexivity. Qed.

(* ================================================================= *)
(** * Further properties of the engine *)

(** ** The buffer of [hermiteArray] *)

Section HermiteBuffer.
Context {D : Type} {A : Arith D}.
Local Open Scope dbl_scope.

(** X1: [hermiteArray] keeps the size of the buffer and never writes beyond
    index [nmax]. *)
Theorem hermiteArray_frame (nmax : Z) (x : D) (result : list D) :
  length (hermiteArray nmax x result) = length result /\
  (forall j, (Z.to_nat nmax < j)%nat -> get (hermiteArray nmax x result) j = get result j).
Proof.
  split; [apply hermiteArray_length|].
  intros j Hj. destruct (Z.lt_ge_cases nmax 1) as [H|H].
  - now rewrite hermiteArray_below_1.
  - rewrite hermiteArray_unfold by lia.
    destruct (hermite_loop_spec x (set (set result 0 #1) 1 (M_SQRT2 * x)) (Z.to_nat nmax))
      as (_ & _ & Hout & _); [lia|].
    rewrite Hout by lia. rewrite !get_set_other by lia. reflexivity.
Qed.

(** X2: for [nmax >= 1] the entries [0..nmax] that [hermiteArray] leaves do
    not depend on what the buffer held before the call. *)
Theorem hermiteArray_overwrites (nmax : Z) (x : D) (r r' : list D) (i : nat) :
  (1 <= nmax)%Z -> (Z.to_nat nmax + 1 <= length r)%nat ->
  (Z.to_nat nmax + 1 <= length r')%nat -> (i <= Z.to_nat nmax)%nat ->
  get (hermiteArray nmax x r) i = get (hermiteArray nmax x r') i.
Proof. apply hermiteArray_fresh. Qed.
End HermiteBuffer.

(** ** The coefficient integrator as a sum *)

Section QuadratureSums.
Context {D : Type} {A : Arith D}.
Local Open Scope dbl_scope.

Lemma node_count : (Z.to_nat (pow_2_int QUADORDER) + 1 = 50)%nat.
Proof. reflexivity. Qed.

(** The state of the loop of [computeGaussHermiteMoments] before turn [n]. *)
Lemma gh_moments_loop_spec fnc order ampl center width n :
  let st := for_range 0 n (gh_moments_node fnc order ampl center width)
              (repeat #0 (order + 1), repeat #0 (order + 1)) in
  length (fst st) = (order + 1)%nat /\
  (order = 0%nat -> fst st = repeat #0 1) /\
  length (snd st) = (order + 1)%nat /\
  (forall i, (i <= order)%nat ->
     get (snd st) i =
     for_range 0 n
       (fun p acc =>
          acc + gh_mult ampl width (gh_y p)
                * (gh_fp fnc center width (gh_y p)
                   + #(parity_sign i) * gh_fm fnc center width p (gh_y p))
                * get (hermiteArray (Z.of_nat order) (gh_y p) (repeat #0 (order + 1))) i)
       #0).
Proof.
  cbv zeta.
  apply for_range_invariant with
    (P := fun n (st : list D * list D) =>
       length (fst st) = (order + 1)%nat /\
       (order = 0%nat -> fst st = repeat #0 1) /\
       length (snd st) = (order + 1)%nat /\
       (forall i, (i <= order)%nat ->
          get (snd st) i =
          for_range 0 n
            (fun p acc =>
               acc + gh_mult ampl width (gh_y p)
                     * (gh_fp fnc center width (gh_y p)
                        + #(parity_sign i) * gh_fm fnc center width p (gh_y p))
                     * get (hermiteArray (Z.of_nat order) (gh_y p) (repeat #0 (order + 1))) i)
            #0)); try lia.
  - cbn [fst snd]. rewrite !repeat_length. repeat split.
    + intros ->. reflexivity.
    + intros i Hi. rewrite for_range_nil by lia. apply get_or_repeat.
  - intros p [h r] Hp (Hh & Hh0 & Hr & Hget). cbn [fst snd] in Hh, Hh0, Hr, Hget.
    destruct (gh_moments_node_spec fnc order ampl center width p h r) as (Hf & Hl & Hi).
    cbv zeta in Hf, Hl, Hi. rewrite Hf, Hl, hermiteArray_length. repeat split; auto.
    + intros ->. rewrite hermiteArray_below_1 by lia. now apply Hh0.
    + intros i Hio. rewrite for_range_snoc by lia. rewrite Hi by lia.
      rewrite Hget by assumption. do 2 f_equal.
      destruct order as [|order'].
      * rewrite Hh0 by reflexivity. reflexivity.
      * apply hermiteArray_fresh; rewrite ?repeat_length; lia.
Qed.

(** The coefficient of index [i] as a sum over the 50 nodes. *)
Lemma coefficient_sum fnc order ampl center width i :
  (i <= order)%nat ->
  get (computeGaussHermiteMoments fnc order ampl center width) i
  = for_range 0 50
      (fun p acc =>
         acc + gh_mult ampl width (gh_y p)
               * (gh_fp fnc center width (gh_y p)
                  + #(parity_sign i) * gh_fm fnc center width p (gh_y p))
               * get (hermiteArray (Z.of_nat order) (gh_y p) (repeat #0 (order + 1))) i)
      #0.
Proof.
  intros Hi. unfold computeGaussHermiteMoments. rewrite node_count.
  destruct (gh_moments_loop_spec fnc order ampl center width 50) as (_ & _ & _ & Hget).
  cbv zeta in Hget. now apply Hget.
Qed.


(** X4: the integrator samples the function at the 99 nodes
    [center + width*p/7], [0 <= p <= 49], and [center - width*p/7],
    [1 <= p <= 49], and nowhere else: two functions that agree there have the
    same coefficients. *)
Theorem computeGaussHermiteMoments_samples_nodes_only fnc gnc order ampl center width :
  (forall p, (p <= 49)%nat ->
     fnc (center + width * gh_y p) = gnc (center + width * gh_y p)) ->
  (forall p, (1 <= p <= 49)%nat ->
     fnc (center - width * gh_y p) = gnc (center - width * gh_y p)) ->
  computeGaussHermiteMoments fnc order ampl center width
  = computeGaussHermiteMoments gnc order ampl center width.
Proof.
  intros Hplus Hminus. unfold computeGaussHermiteMoments. f_equal.
  apply for_range_ext. intros p st Hp. rewrite node_count in Hp.
  unfold gh_moments_node, gh_fp, gh_fm. rewrite Hplus by lia.
  destruct (Nat.eqb_spec p 0) as [->|Hne]; [reflexivity|].
  rewrite Hminus by lia. reflexivity.
Qed.
End QuadratureSums.

(** ** The fitter and its Jacobian *)

Section FitterJacobian.
Context {D : Type} {A : Arith D}.
Local Open Scope dbl_scope.

(** X5: when only the derivatives are asked for ([values] is null), the
    fitter does not use the function: the result is the same for every
    function, and [values] stays null. *)
Theorem evalDeriv_without_values_ignores_function (order : nat) (fnc gnc : D -> D)
    (vars : list D) (derivs : option (list D)) :
  evalDeriv (GaussHermiteFitter order fnc) vars None derivs
  = evalDeriv (GaussHermiteFitter order gnc) vars None derivs /\
  fst (evalDeriv (GaussHermiteFitter order fnc) vars None derivs) = None.
Proof.
  cbn [evalDeriv GaussHermiteFitter].
  generalize (Z.to_nat (2 * pow_2_int QUADORDER) + 1)%nat. intros n.
  enough (H : for_range 0 n (fitter_node order fnc vars) (repeat #0 (order + 1), (None, derivs))
              = for_range 0 n (fitter_node order gnc vars) (repeat #0 (order + 1), (None, derivs))
              /\ fst (snd (for_range 0 n (fitter_node order fnc vars)
                             (repeat #0 (order + 1), (None, derivs)))) = None).
  { destruct H as [H1 H2]. split; [now rewrite H1|exact H2]. }
  induction n as [|n [IH1 IH2]].
  - rewrite !for_range_nil by lia. split; reflexivity.
  - rewrite !for_range_snoc by lia. rewrite <- IH1.
    destruct (for_range 0 n (fitter_node order fnc vars) _) as [h [v d]].
    cbn [fst snd] in IH2. subst v. split; reflexivity.
Qed.

(** The derivatives one node stores: its row starts with [-mult], and nothing
    outside the row is written. *)
Lemma fitter_node_derivs order fnc vars p hpoly values derivs :
  (2 <= order)%nat -> length hpoly = (order + 1)%nat ->
  (p * (order + 1) < length derivs)%nat ->
  exists d,
    snd (snd (fitter_node order fnc vars p (hpoly, (values, Some derivs)))) = Some d /\
    length d = length derivs /\
    get d (p * (order + 1)) = - fit_mult order vars p /\
    (forall j, (j < p * (order + 1) \/ p * (order + 1) + order < j)%nat ->
       get d j = get derivs j).
Proof.
  intros Ho Hh Hp. unfold fitter_node. cbn [fst snd].
  eexists. split; [reflexivity|].
  set (d3 := set (set (set derivs _ _) _ _) _ _).
  assert (Hd3 : length d3 = length derivs) by (unfold d3; now rewrite !set_length).
  match goal with
  | |- context [for_range 3 (order + 1) ?body d3] =>
      assert (Hloop : length (for_range 3 (order + 1) body d3) = length derivs /\
                      forall j, (j < p * (order + 1) + 3 \/ p * (order + 1) + order < j)%nat ->
                        get (for_range 3 (order + 1) body d3) j = get d3 j)
  end.
  { apply for_range_invariant with
      (P := fun (_ : nat) (d : list D) =>
         length d = length derivs /\
         forall j, (j < p * (order + 1) + 3 \/ p * (order + 1) + order < j)%nat ->
           get d j = get d3 j); try lia.
    - split; [exact Hd3|reflexivity].
    - intros n d Hn [Hl Hj]. split; [now rewrite set_length|].
      intros j Hjr. rewrite get_set_other by lia. now apply Hj. }
  destruct Hloop as [Hl Hj]. split; [exact Hl|]. split.
  - rewrite Hj by lia. unfold d3. rewrite !get_set_other by lia.
    rewrite get_set_same by lia. unfold fit_mult, fit_sum.
    do 3 f_equal.
    apply for_range_ext. intros n sum Hn. do 2 f_equal.
    apply hermiteArray_fresh; rewrite ?repeat_length; lia.
  - intros j Hjr. rewrite Hj by lia. unfold d3. rewrite !get_set_other by lia. reflexivity.
Qed.

(** The first entry of every row of the Jacobian that [evalDeriv] stores. *)
Lemma evalDeriv_derivs_column_0 order fnc vars values derivs :
  (2 <= order)%nat -> length derivs = (99 * (order + 1))%nat ->
  exists d,
    snd (evalDeriv (GaussHermiteFitter order fnc) vars values (Some derivs)) = Some d /\
    length d = length derivs /\
    forall k, (k < 99)%nat -> get d (k * (order + 1)) = - fit_mult order vars k.
Proof.
  intros Ho Hlen. cbn [evalDeriv GaussHermiteFitter].
  change (Z.to_nat (2 * pow_2_int QUADORDER) + 1)%nat with 99%nat.
  enough (H : forall st, st = for_range 0 99 (fitter_node order fnc vars)
                (repeat #0 (order + 1), (values, Some derivs)) ->
      length (fst st) = (order + 1)%nat /\
      exists d, snd (snd st) = Some d /\ length d = length derivs /\
        forall k, (k < 99)%nat -> get d (k * (order + 1)) = - fit_mult order vars k).
  { destruct (H _ eq_refl) as (_ & d & Hd & Hl & Hk). exists d. auto. }
  intros st ->.
  apply for_range_invariant with
    (P := fun n (st : list D * (option (list D) * option (list D))) =>
       length (fst st) = (order + 1)%nat /\
       exists d, snd (snd st) = Some d /\ length d = length derivs /\
         forall k, (k < n)%nat -> get d (k * (order + 1)) = - fit_mult order vars k); try lia.
  - cbn [fst snd]. rewrite repeat_length. split; [reflexivity|].
    exists derivs. repeat split. intros; lia.
  - intros n [h [vs ds]] Hn (Hh & d & Hd & Hl & Hk). cbn [fst snd] in Hh, Hd. subst ds.
    destruct (fitter_node_derivs order fnc vars n h vs d Ho Hh) as (d' & Hd' & Hl' & Hrow & Hout);
      [nia|].
    split.
    + unfold fitter_node. cbn [fst]. now rewrite hermiteArray_length.
    + exists d'. split; [exact Hd'|]. split; [congruence|].
      intros k Hk'. destruct (Nat.eq_dec k n) as [->|Hne]; [exact Hrow|].
      rewrite Hout by nia. apply Hk. lia.
Qed.

Lemma fit_mult_set_amplitude order (vars : list D) (a : D) p :
  fit_mult order (set vars 0 a) p = fit_mult order vars p.
Proof.
  unfold fit_mult, fit_sum. rewrite get_set_other by lia. do 2 f_equal.
  apply for_range_ext. intros n sum Hn. rewrite get_set_other by lia. reflexivity.
Qed.

Lemma fit_x_set_amplitude (vars : list D) (a : D) p : fit_x (set vars 0 a) p = fit_x vars p.
Proof. unfold fit_x. now rewrite !get_set_other by lia. Qed.
End FitterJacobian.

(** ** The expansion object, the matrix builder and the constructor *)

Section ObjectAndBuilders.
Context {D : Type} {A : Arith D}.
Local Open Scope dbl_scope.
Variable integrateNdim : IFunctionNdim D -> list D -> list D -> D -> nat -> list D.
Variable nonlinearMultiFit : IFunctionNdimDeriv D -> list D -> D -> Z -> list D.
Variable MAX_GL_TABLE : Z.
Variable GLPOINTS GLWEIGHTS : Z -> list D.
Variable factorial dfactorial : nat -> D.

(** With two coefficients or more, [value] overwrites the block it takes from
    [alloca] before reading it. *)
Lemma value_scratch_independent (e : GaussHermiteExpansion D) (scratch scratch' : list D)
    (x : D) :
  (2 <= length (moments e))%nat ->
  length scratch = length (moments e) -> length scratch' = length (moments e) ->
  value e scratch x = value e scratch' x.
Proof.
  intros Hm Hs Hs'. unfold value.
  destruct (Nat.eqb_spec (length (moments e)) 0); [lia|].
  f_equal. apply for_range_ext. intros i acc Hi. do 2 f_equal.
  apply hermiteArray_fresh; lia.
Qed.

(** X6: what [value] makes of the block it takes from [alloca]: with two
    coefficients or more the block is overwritten before it is read and the
    value does not depend on it; with no coefficient the value is 0; with
    exactly one coefficient [hermiteArray] is called with [nmax = 0] and
    writes nothing, and the value is that coefficient times whatever the
    block held, times the envelope. *)
Theorem value_and_the_alloca_block :
  (forall (e : GaussHermiteExpansion D) (scratch scratch' : list D) (x : D),
     (2 <= length (moments e))%nat ->
     length scratch = length (moments e) -> length scratch' = length (moments e) ->
     value e scratch x = value e scratch' x) /\
  (forall (e : GaussHermiteExpansion D) (scratch : list D) (x : D),
     moments e = [] -> value e scratch x = #0) /\
  (forall (ampl center width c : D) (scratch : list D) (x : D),
     value {| Ampl := ampl; Center := center; Width := width; moments := [c] |} scratch x
     = (#0 + c * get scratch 0)
       * ((#1 / M_SQRT2 / M_SQRTPI) * ampl / width
          * dexp ((- dec 5 1) * pow_2 ((x - center) / width)))).
Proof.
  split; [|split].
  - apply value_scratch_independent.
  - intros e scratch x Hm. unfold value. rewrite Hm. reflexivity.
  - intros ampl center width c scratch x. unfold value.
    cbn [moments Ampl Center Width length Nat.eqb].
    rewrite hermiteArray_below_1 by (cbn; lia). reflexivity.
Qed.

Lemma fold_left_ext_in {S T : Type} (f g : S -> T -> S) (l : list T) :
  (forall s x, In x l -> f s x = g s x) ->
  forall s, fold_left f l s = fold_left g l s.
Proof.
  induction l as [|x l IH]; intros H s; cbn; [reflexivity|].
  rewrite H by (now left). apply IH. intros s' y Hy. apply H. now right.
Qed.

(** X7: [norm] reads the coefficients of even index only: two expansions of
    the same amplitude and size that agree there have the same integral. *)
Theorem norm_ignores_odd_coefficients (e e' : GaussHermiteExpansion D) :
  Ampl e = Ampl e' -> length (moments e) = length (moments e') ->
  (forall n, Nat.even n = true -> get (moments e) n = get (moments e') n) ->
  norm factorial dfactorial e = norm factorial dfactorial e'.
Proof.
  intros Ha Hl Heven. rewrite !norm_is_even_sum. rewrite Ha. f_equal.
  unfold even_sum. rewrite Hl. apply fold_left_ext_in.
  intros acc n Hn. apply filter_In in Hn. destruct Hn as [_ Hn].
  now rewrite Heven.
Qed.

Lemma gh_matrix_node_length N interp order ampl center width glnodes glweights x1 dx k st :
  length (snd (gh_matrix_node N interp order ampl center width glnodes glweights x1 dx k st))
  = length (snd st).
Proof.
  unfold gh_matrix_node. cbn [snd].
  apply for_range_invariant with
    (P := fun (_ : nat) (d : list D) => length d = length (snd st)); try lia.
  intros m d _ Hd.
  apply for_range_invariant with
    (P := fun (_ : nat) (d : list D) => length d = length (snd st)); try lia.
  intros b d' _ Hd'. now rewrite set_length.
Qed.

Lemma matrix_data_length (N : nat) (interp : BsplineInterpolator1d D)
    (order : nat) (ampl center width : D) :
  length (data (computeGaussHermiteMatrix_tpl MAX_GL_TABLE GLPOINTS GLWEIGHTS N interp order
                  ampl center width)) = ((order + 1) * numValuesB interp)%nat.
Proof.
  unfold computeGaussHermiteMatrix_tpl. cbn [data].
  apply for_range_invariant with
    (P := fun (_ : nat) (st : list D * list D) =>
            length (snd st) = ((order + 1) * numValuesB interp)%nat); try lia.
  - cbn [snd]. apply repeat_length.
  - intros n st _ Hst.
    apply for_range_invariant with
      (P := fun (_ : nat) (st : list D * list D) =>
              length (snd st) = ((order + 1) * numValuesB interp)%nat); try lia.
    intros k st' _ Hst'. now rewrite gh_matrix_node_length.
Qed.





(** The value [hermiteArray] leaves at index [i] does not depend on the
    degree [nmax >= max(i, 1)] it was asked for. *)
Lemma hermiteArray_prefix (n1 n2 : Z) (x : D) (r1 r2 : list D) (i : nat) :
  (1 <= n1)%Z -> (1 <= n2)%Z ->
  (Z.to_nat n1 + 1 <= length r1)%nat -> (Z.to_nat n2 + 1 <= length r2)%nat ->
  (i <= Z.to_nat n1)%nat -> (i <= Z.to_nat n2)%nat ->
  get (hermiteArray n1 x r1) i = get (hermiteArray n2 x r2) i.
Proof.
  intros Hn1 Hn2 Hr1 Hr2.
  destruct (hermiteArray_spec n1 x r1 Hn1 Hr1) as (H0 & H1 & Hrec & _).
  destruct (hermiteArray_spec n2 x r2 Hn2 Hr2) as (H0' & H1' & Hrec' & _).
  induction i as [i IH] using lt_wf_ind. intros Hi1 Hi2.
  destruct i as [|[|k]].
  - now rewrite H0, H0'.
  - now rewrite H1, H1'.
  - replace (Datatypes.S (Datatypes.S k)) with (Datatypes.S k + 1)%nat by lia.
    rewrite Hrec, Hrec' by lia.
    rewrite (IH (Datatypes.S k)) by lia. rewrite (IH (Datatypes.S k - 1)%nat) by lia.
    reflexivity.
Qed.

(** The coefficient of index [i] is the same for every order that has it. *)
Lemma moments_prefix (fnc : D -> D) (o1 o2 : nat) (ampl center width : D) (i : nat) :
  (1 <= o1)%nat -> (1 <= o2)%nat -> (i <= o1)%nat -> (i <= o2)%nat ->
  get (computeGaussHermiteMoments fnc o1 ampl center width) i
  = get (computeGaussHermiteMoments fnc o2 ampl center width) i.
Proof.
  intros H1 H2 Hi1 Hi2. rewrite !coefficient_sum by assumption.
  apply for_range_ext. intros p acc _. do 2 f_equal.
  apply hermiteArray_prefix; rewrite ?repeat_length; lia.
Qed.

(** X9: increasing the order of the expansion does not change the envelope
    nor the coefficients already there.  Two constructions from the same
    function and the same arguments, with orders [o1] and [o2] at least 2 and
    below 2^31, go through the same phases, return the same amplitude, centre
    and width (the fit is always that of the order-2 model), and agree on the
    coefficients of every index up to the smaller order. *)
Theorem ctor_order_independence (fnc : D -> D) (o1 o2 : nat) (ampl center width : D) :
  (2 <= o1)%nat -> (2 <= o2)%nat ->
  (Z.of_nat o1 < 2 ^ 31)%Z -> (Z.of_nat o2 < 2 ^ 31)%Z ->
  exists phases e1 e2,
    GaussHermiteExpansion_ctor integrateNdim nonlinearMultiFit fnc o1 ampl center width
    = (phases, Returned e1) /\
    GaussHermiteExpansion_ctor integrateNdim nonlinearMultiFit fnc o2 ampl center width
    = (phases, Returned e2) /\
    Ampl e1 = Ampl e2 /\ Center e1 = Center e2 /\ Width e1 = Width e2 /\
    forall i, (i <= o1)%nat -> (i <= o2)%nat -> get (moments e1) i = get (moments e2) i.
Proof.
  intros Ho1 Ho2 _ _. unfold GaussHermiteExpansion_ctor.
  destruct (Nat.ltb_spec o1 2); [lia|]. destruct (Nat.ltb_spec o2 2); [lia|].
  destruct (isFinite (ampl + center + width)); cbn;
    (do 3 eexists; split; [reflexivity|]; split; [reflexivity|];
     cbn [Ampl Center Width moments]; repeat split;
     intros i Hi1 Hi2; apply moments_prefix; lia).
Qed.

(** X10: every expansion the constructor returns for an order below 2^31 has
    [order+1 >= 3] coefficients, so that [value] on it never depends on what
    the block from [alloca] holds. *)
Theorem ctor_result_is_safe_to_evaluate (fnc : D -> D) (order : nat) (ampl center width : D)
    (phases : list phase) (e : GaussHermiteExpansion D) :
  (Z.of_nat order < 2 ^ 31)%Z ->
  GaussHermiteExpansion_ctor integrateNdim nonlinearMultiFit fnc order ampl center width
  = (phases, Returned e) ->
  (2 <= order)%nat /\
  length (moments e) = (order + 1)%nat /\
  forall (scratch scratch' : list D) (x : D),
    length scratch = (order + 1)%nat -> length scratch' = (order + 1)%nat ->
    value e scratch x = value e scratch' x.
Proof.
  unfold GaussHermiteExpansion_ctor. intros _ H.
  destruct (Nat.ltb_spec order 2) as [Hlt|Hge]; [discriminate H|].
  assert (Hlen : length (moments e) = (order + 1)%nat).
  { destruct (isFinite (ampl + center + width)); cbn in H;
      injection H as _ <-; cbn [moments]; apply computeGaussHermiteMoments_length. }
  split; [exact Hge|]. split; [exact Hlen|].
  intros scratch scratch' x Hs Hs'. apply value_scratch_independent; lia.
Qed.
End ObjectAndBuilders.

(** ** Over the reals: symmetries, closed forms and scalings *)

Section MoreOverReals.
Local Open Scope R_scope.
#[local] Existing Instance RealArith.

Ltac real_arith :=
  cbv [of_Z dec dadd dsub dmul ddiv dopp deqb dsqrt dexp dfmax isFinite isINFINITY
       M_SQRT2 M_SQRTPI RealArith] in *.

Lemma hermiteArray_overwrites_witness :
  get (hermiteArray 2 1 [5; 6; 7]) 2 = get (hermiteArray 2 1 [0; 0; 0]) 2.
Proof.
  apply (hermiteArray_overwrites 2 1 [5; 6; 7] [0; 0; 0] 2); simpl; lia.
Defined.

Lemma gh_y_range p : (p <= 49)%nat -> 0 <= gh_y p <= 7.
Proof.
  intros Hp. unfold gh_y, QUADORDER. real_arith.
  assert (0 <= IZR (Z.of_nat p) <= 49) by (split; apply IZR_le; lia).
  lra.
Qed.

Lemma computeGaussHermiteMoments_samples_nodes_only_witness :
  computeGaussHermiteMoments (fun _ => 1) 2 1 0 1
  = computeGaussHermiteMoments (fun x => Rmax 1 (x - 99)) 2 1 0 1.
Proof.
  apply (computeGaussHermiteMoments_samples_nodes_only
           (fun _ => 1) (fun x => Rmax 1 (x - 99)) 2 1 0 1).
  - intros p Hp. pose proof (gh_y_range p Hp). cbv beta. symmetry. apply Rmax_left.
    real_arith. lra.
  - intros p Hp. assert (Hp' : (p <= 49)%nat) by lia.
    pose proof (gh_y_range p Hp'). cbv beta. symmetry. apply Rmax_left.
    real_arith. lra.
Defined.

Lemma norm_ignores_odd_coefficients_witness :
  norm (fun _ => 1) (fun _ => 1)
    {| Ampl := 1; Center := 0; Width := 1; moments := [1; 5; 2] |}
  = norm (fun _ => 1) (fun _ => 1)
      {| Ampl := 1; Center := 0; Width := 1; moments := [1; 9; 2] |}.
Proof.
  apply (norm_ignores_odd_coefficients (fun _ => 1) (fun _ => 1)
           {| Ampl := 1; Center := 0; Width := 1; moments := [1; 5; 2] |}
           {| Ampl := 1; Center := 0; Width := 1; moments := [1; 9; 2] |}).
  - reflexivity.
  - reflexivity.
  - intros n Hn. destruct n as [|[|n]]; [reflexivity|discriminate|reflexivity].
Defined.


Lemma ctor_order_independence_witness :
  exists phases e1 e2,
    GaussHermiteExpansion_ctor no_integrator no_fit (fun x => x) 2 1 0 1
    = (phases, Returned e1) /\
    GaussHermiteExpansion_ctor no_integrator no_fit (fun x => x) 5 1 0 1
    = (phases, Returned e2) /\
    Ampl e1 = Ampl e2 /\ Center e1 = Center e2 /\ Width e1 = Width e2 /\
    forall i, (i <= 2)%nat -> (i <= 5)%nat -> get (moments e1) i = get (moments e2) i.
Proof.
  apply (ctor_order_independence no_integrator no_fit (fun x => x) 2 5 1 0 1);
    try lia; reflexivity.
Defined.

Lemma ctor_result_is_safe_to_evaluate_witness :
  (2 <= 2)%nat /\
  length (moments {| Ampl := 1; Center := 0; Width := 1;
                     moments := computeGaussHermiteMoments (fun x => x) 2 1 0 1 |})
  = (2 + 1)%nat /\
  forall (scratch scratch' : list R) (x : R),
    length scratch = (2 + 1)%nat -> length scratch' = (2 + 1)%nat ->
    value {| Ampl := 1; Center := 0; Width := 1;
             moments := computeGaussHermiteMoments (fun x => x) 2 1 0 1 |} scratch x
    = value {| Ampl := 1; Center := 0; Width := 1;
               moments := computeGaussHermiteMoments (fun x => x) 2 1 0 1 |} scratch' x.
Proof.
  apply (ctor_result_is_safe_to_evaluate no_integrator no_fit (fun x => x) 2 1 0 1
           [CoefficientIntegration]).
  - reflexivity.
  - reflexivity.
Defined.

(** *** The polynomials *)

Lemma parity_sign_succ i : IZR (parity_sign (S i)) = - IZR (parity_sign i).
Proof.
  destruct (Nat.even i) eqn:E.
  - rewrite (parity_sign_even i E), (parity_sign_odd (S i)).
    + lra.
    + now rewrite Nat.even_succ, <- Nat.negb_even, E.
  - rewrite (parity_sign_odd i E), (parity_sign_even (S i)).
    + lra.
    + now rewrite Nat.even_succ, <- Nat.negb_even, E.
Qed.

(** What [hermiteArray] leaves at index [i] for [-x] is the sign of the parity
    of [i] times what it leaves for [x]. *)
Lemma hermite_reflection (nmax : Z) (x : R) (r r' : list R) (i : nat) :
  (1 <= nmax)%Z -> (Z.to_nat nmax + 1 <= length r)%nat ->
  (Z.to_nat nmax + 1 <= length r')%nat -> (i <= Z.to_nat nmax)%nat ->
  get (hermiteArray nmax (- x) r) i = IZR (parity_sign i) * get (hermiteArray nmax x r') i.
Proof.
  intros Hn Hr Hr'.
  destruct (hermiteArray_spec nmax (- x) r Hn Hr) as (H0 & H1 & Hrec & _).
  destruct (hermiteArray_spec nmax x r' Hn Hr') as (H0' & H1' & Hrec' & _).
  induction i as [i IH] using lt_wf_ind. intros Hi.
  destruct i as [|[|k]].
  - rewrite H0, H0'. cbn. real_arith. lra.
  - rewrite H1, H1'. cbn. real_arith. lra.
  - replace (S (S k)) with (S k + 1)%nat by lia.
    rewrite Hrec, Hrec' by lia.
    rewrite (IH (S k)) by lia. rewrite (IH (S k - 1)%nat) by lia.
    replace (S k + 1)%nat with (S (S k)) by lia.
    replace (S k - 1)%nat with k by lia.
    rewrite !parity_sign_succ. real_arith. unfold Rdiv. ring.
Qed.

(** X11: the polynomial of degree [i] is even for even [i] and odd for odd
    [i]: [H_i(-x) = (-1)^i * H_i(x)], with the sign [i%2 ? -1 : 1] of the
    integrator. *)
Theorem hermiteArray_parity (nmax : Z) (x : R) (r r' : list R) (i : nat) :
  (1 <= nmax)%Z -> (Z.to_nat nmax + 1 <= length r)%nat ->
  (Z.to_nat nmax + 1 <= length r')%nat -> (i <= Z.to_nat nmax)%nat ->
  get (hermiteArray nmax (- x) r) i = IZR (parity_sign i) * get (hermiteArray nmax x r') i.
Proof. apply hermite_reflection. Qed.

Lemma hermiteArray_parity_witness :
  get (hermiteArray 3 (- 2) [0; 0; 0; 0]) 3
  = IZR (parity_sign 3) * get (hermiteArray 3 2 [0; 0; 0; 0]) 3.
Proof.
  apply (hermiteArray_parity 3 2 [0; 0; 0; 0] [0; 0; 0; 0] 3); simpl; lia.
Defined.

Lemma sqrt_2_sqr : sqrt 2 * sqrt 2 = 2.
Proof. apply sqrt_sqrt. lra. Qed.

(** X12: the polynomials of degree 2 and 3 in closed form:
    [H_2(x) = (2x^2 - 1)/sqrt(2)] and [H_3(x) = x(2x^2 - 3)/sqrt(3)]. *)
Theorem hermiteArray_degrees_2_3 (nmax : Z) (x : R) (r : list R) :
  (3 <= nmax)%Z -> (Z.to_nat nmax + 1 <= length r)%nat ->
  get (hermiteArray nmax x r) 2 = (2 * x * x - 1) / sqrt 2 /\
  get (hermiteArray nmax x r) 3 = x * (2 * x * x - 3) / sqrt 3.
Proof.
  intros Hn Hr.
  destruct (hermiteArray_spec nmax x r) as (H0 & H1 & Hrec & _); [lia|lia|].
  pose proof (Hrec 1%nat) as H2. pose proof (Hrec 2%nat) as H3.
  cbn [Nat.add Nat.sub] in H2, H3.
  rewrite H1, H0 in H2 by lia.
  assert (E2 : get (hermiteArray nmax x r) 2 = (2 * x * x - 1) / sqrt 2).
  { rewrite H2 by lia.
    rewrite sqrtn_of_real, sqrtnplus1_of_real by lia.
    cbn [Nat.add INR]. rewrite sqrt_1. real_arith.
    replace (1 + 1) with 2 by lra.
    replace (sqrt 2 * x * (sqrt 2 * x)) with ((sqrt 2 * sqrt 2) * x * x) by ring.
    rewrite sqrt_2_sqr. f_equal. ring. }
  split; [exact E2|].
  rewrite H3 by lia. rewrite E2, H1.
  rewrite sqrtn_of_real, sqrtnplus1_of_real by lia.
  cbn [Nat.add INR]. real_arith.
  replace (1 + 1) with 2 by lra. replace (2 + 1) with 3 by lra.
  assert (0 < sqrt 2) by (apply sqrt_lt_R0; lra).
  assert (0 < sqrt 3) by (apply sqrt_lt_R0; lra).
  pose proof sqrt_2_sqr.
  apply Rmult_eq_reg_r with (r := sqrt 3); [|lra].
  unfold Rdiv. rewrite !Rmult_assoc, Rinv_l by lra. rewrite !Rmult_1_r.
  replace (sqrt 2 * (x * ((2 * (x * x) - 1) * / sqrt 2)) - sqrt 2 * (sqrt 2 * x))
    with ((sqrt 2 * / sqrt 2) * x * (2 * (x * x) - 1) - (sqrt 2 * sqrt 2) * x) by ring.
  rewrite Rinv_r by lra. rewrite sqrt_2_sqr. ring.
Qed.

Lemma hermiteArray_degrees_2_3_witness :
  get (hermiteArray 3 1 [0; 0; 0; 0]) 2 = (2 * 1 * 1 - 1) / sqrt 2 /\
  get (hermiteArray 3 1 [0; 0; 0; 0]) 3 = 1 * (2 * 1 * 1 - 3) / sqrt 3.
Proof.
  apply (hermiteArray_degrees_2_3 3 1 [0; 0; 0; 0]); simpl; lia.
Defined.

(** *** The coefficient integrator *)

(** X13: what one turn of the loop of the integrator adds for the pair of
    nodes [+y] and [-y] is the sum of the two one-sided terms
    [mult(y) * f(center + width*y) * H_i(y)] at [y] and at [-y]: the sign
    [i%2 ? -1 : 1] stands for the parity of [H_i], and [mult] is even. *)
Theorem symmetric_fold_is_two_sided (fnc : R -> R) (order : nat) (ampl center width y : R)
    (p i : nat) (h h' : list R) :
  (1 <= order)%nat -> (i <= order)%nat -> (1 <= p)%nat ->
  length h = (order + 1)%nat -> length h' = (order + 1)%nat ->
  gh_mult ampl width y
  * (gh_fp fnc center width y + IZR (parity_sign i) * gh_fm fnc center width p y)
  * get (hermiteArray (Z.of_nat order) y h) i
  = gh_mult ampl width y * fnc (center + width * y) * get (hermiteArray (Z.of_nat order) y h) i
    + gh_mult ampl width (- y) * fnc (center + width * (- y))
      * get (hermiteArray (Z.of_nat order) (- y) h') i.
Proof.
  intros Ho Hi Hp Hh Hh'.
  rewrite (hermite_reflection (Z.of_nat order) y h' h i) by lia.
  unfold gh_fp, gh_fm, gh_mult.
  destruct (Nat.eqb_spec p 0) as [Hz|_]; [lia|].
  real_arith.
  replace (center + width * - y) with (center - width * y) by ring.
  replace (- (5 / 10 ^ 1) * - y * - y) with (- (5 / 10 ^ 1) * y * y) by ring.
  ring.
Qed.

Lemma symmetric_fold_is_two_sided_witness :
  gh_mult 1 1 2
  * (gh_fp (fun x => x) 0 1 2 + IZR (parity_sign 1) * gh_fm (fun x => x) 0 1 1 2)
  * get (hermiteArray (Z.of_nat 2) 2 [0; 0; 0]) 1
  = gh_mult 1 1 2 * (0 + 1 * 2) * get (hermiteArray (Z.of_nat 2) 2 [0; 0; 0]) 1
    + gh_mult 1 1 (- 2) * (0 + 1 * (- 2))
      * get (hermiteArray (Z.of_nat 2) (- 2) [0; 0; 0]) 1.
Proof.
  apply (symmetric_fold_is_two_sided (fun x => x) 2 1 0 1 2 1 1 [0; 0; 0] [0; 0; 0]);
    simpl; lia.
Defined.

(** X14: the coefficients are linear in the function. *)
Theorem computeGaussHermiteMoments_linear (f g : R -> R) (a b : R) order ampl center width i :
  (i <= order)%nat ->
  get (computeGaussHermiteMoments (fun x => a * f x + b * g x) order ampl center width) i
  = a * get (computeGaussHermiteMoments f order ampl center width) i
    + b * get (computeGaussHermiteMoments g order ampl center width) i.
Proof.
  intros Hi. rewrite !coefficient_sum by assumption.
  generalize 50%nat. intros n. induction n as [|n IH].
  - rewrite !for_range_nil by lia. real_arith. ring.
  - rewrite !for_range_snoc by lia. rewrite IH.
    unfold gh_fp, gh_fm. destruct (n =? 0)%nat; real_arith; ring.
Qed.

Lemma computeGaussHermiteMoments_linear_witness :
  get (computeGaussHermiteMoments (fun x => 2 * (x * x) + 3 * x) 2 1 0 1) 1
  = 2 * get (computeGaussHermiteMoments (fun x => x * x) 2 1 0 1) 1
    + 3 * get (computeGaussHermiteMoments (fun x => x) 2 1 0 1) 1.
Proof.
  apply (computeGaussHermiteMoments_linear (fun x => x * x) (fun x => x) 2 3 2 1 0 1 1). lia.
Defined.

(** X15: for a function antisymmetric about [center] every coefficient of even
    index is 0. *)
Theorem computeGaussHermiteMoments_even_antisymmetric (f : R -> R) order ampl center width :
  (forall t, f (center + t) = - f (center - t)) ->
  forall i, (i <= order)%nat -> Nat.even i = true ->
  get (computeGaussHermiteMoments f order ampl center width) i = 0.
Proof.
  intros Hanti i Hi He.
  assert (Hc : f center = 0).
  { pose proof (Hanti 0) as H. rewrite Rplus_0_r, Rminus_0_r in H. lra. }
  rewrite coefficient_sum by assumption.
  apply for_range_invariant with (P := fun (_ : nat) (acc : R) => acc = 0); try lia.
  - reflexivity.
  - intros p acc _ ->. rewrite parity_sign_even by assumption.
    unfold gh_fp, gh_fm. destruct (Nat.eqb_spec p 0) as [->|Hp].
    + rewrite gh_y_0. real_arith.
      replace (center + width * 0) with center by ring. rewrite Hc. ring.
    + rewrite Hanti. real_arith. ring.
Qed.

Lemma computeGaussHermiteMoments_even_antisymmetric_witness :
  get (computeGaussHermiteMoments (fun x => x) 3 1 0 1) 2 = 0.
Proof.
  apply (computeGaussHermiteMoments_even_antisymmetric (fun x => x) 3 1 0 1).
  - intros t. ring.
  - lia.
  - reflexivity.
Defined.

(** X16: the coefficients are inversely proportional to the amplitude of the
    envelope. *)
Theorem computeGaussHermiteMoments_amplitude (f : R -> R) order ampl center width i :
  ampl <> 0 -> (i <= order)%nat ->
  get (computeGaussHermiteMoments f order ampl center width) i
  = get (computeGaussHermiteMoments f order 1 center width) i / ampl.
Proof.
  intros Ha Hi. rewrite !coefficient_sum by assumption.
  generalize 50%nat. intros n. induction n as [|n IH].
  - rewrite !for_range_nil by lia. real_arith. field. exact Ha.
  - rewrite !for_range_snoc by lia. rewrite IH.
    unfold gh_mult, QUADORDER. real_arith. field. repeat split; try lra; assumption.
Qed.

Lemma computeGaussHermiteMoments_amplitude_witness :
  get (computeGaussHermiteMoments (fun x => x * x) 2 3 0 1) 0
  = get (computeGaussHermiteMoments (fun x => x * x) 2 1 0 1) 0 / 3.
Proof.
  apply (computeGaussHermiteMoments_amplitude (fun x => x * x) 2 3 0 1 0); [lra|lia].
Defined.

(** X17: shifting the function and the centre by the same amount leaves the
    coefficients unchanged. *)
Theorem computeGaussHermiteMoments_shift (f : R -> R) (s : R) order ampl center width :
  computeGaussHermiteMoments (fun x => f (x - s)) order ampl (center + s) width
  = computeGaussHermiteMoments f order ampl center width.
Proof.
  unfold computeGaussHermiteMoments. f_equal.
  apply for_range_ext. intros p st _.
  assert (E1 : dadd (center + s) (dmul width (gh_y p)) - s
               = dadd center (dmul width (gh_y p))) by (real_arith; ring).
  assert (E2 : dsub (center + s) (dmul width (gh_y p)) - s
               = dsub center (dmul width (gh_y p))) by (real_arith; ring).
  unfold gh_moments_node, gh_fp, gh_fm. cbv beta. rewrite E1, E2.
  reflexivity.
Qed.

Lemma all_zero_is_repeat (l : list R) : Forall (fun c => c = 0) l -> l = repeat 0 (length l).
Proof. induction 1 as [|c l Hc _ IH]; cbn; [reflexivity|]. now rewrite Hc, <- IH. Qed.

(** X18: called with [order = 0], the integrator returns the single
    coefficient 0 whatever the function: [hermiteArray] writes nothing for
    [nmax = 0], so that [hpoly[0]] keeps the 0 the vector was created with. *)
Theorem computeGaussHermiteMoments_order_0 (f : R -> R) (ampl center width : R) :
  computeGaussHermiteMoments f 0 ampl center width = [0].
Proof.
  assert (Hz : Forall (fun c => c = 0) (computeGaussHermiteMoments f 0 ampl center width)).
  { unfold computeGaussHermiteMoments.
    enough (H : forall st, st = for_range 0 (Z.to_nat (pow_2_int QUADORDER) + 1)
                  (gh_moments_node f 0 ampl center width)
                  (repeat #0%D (0 + 1), repeat #0%D (0 + 1)) ->
                fst st = [0] /\ Forall (fun c => c = 0) (snd st))
      by (now apply H).
    intros st ->.
    apply for_range_invariant with
      (P := fun (_ : nat) (st : list R * list R) =>
              fst st = [0] /\ Forall (fun c => c = 0) (snd st)); try lia.
    - split; [reflexivity|]. apply repeat_all_zero.
    - intros p [h r] _ [Hh Hr]. cbn [fst snd] in Hh, Hr. subst h.
      unfold gh_moments_node. cbn [fst snd]. rewrite hermiteArray_below_1 by lia.
      split; [reflexivity|].
      apply for_range_invariant with
        (P := fun (_ : nat) (r : list R) => Forall (fun c => c = 0) r); try lia; [exact Hr|].
      intros i r' Hi Hr'. apply set_all_zero; [|exact Hr'].
      rewrite (get_all_zero r' i Hr'), (get_all_zero [0] i (repeat_all_zero 1)).
      real_arith. ring. }
  rewrite (all_zero_is_repeat _ Hz), computeGaussHermiteMoments_length. reflexivity.
Qed.

(** *** The matrix builder *)

(** X19: for [order = 0] the matrix builder returns the zero matrix whatever
    the grid and the basis: the row of [H_0] is never filled. *)
Theorem computeGaussHermiteMatrix_tpl_order_0 (MAX_GL_TABLE : Z) (GLPOINTS GLWEIGHTS : Z -> list R)
    (N : nat) (interp : BsplineInterpolator1d R) (ampl center width : R) :
  data (computeGaussHermiteMatrix_tpl MAX_GL_TABLE GLPOINTS GLWEIGHTS N interp 0
          ampl center width) = repeat 0 (numValuesB interp).
Proof.
  rewrite (all_zero_is_repeat _
             (order_0_matrix_is_zero MAX_GL_TABLE GLPOINTS GLWEIGHTS N interp ampl center width)).
  rewrite matrix_data_length. f_equal. lia.
Qed.

(** *** The expansion object *)

Lemma get_unit_coefficients k n : (1 <= n)%nat -> get (1 :: repeat 0 k) n = 0.
Proof.
  intros Hn. destruct n as [|n]; [lia|]. unfold get, get_or. cbn [nth].
  apply (get_or_repeat 0 k n).
Qed.

(** X20: an expansion with the coefficients (1, 0, ..., 0) evaluates to its
    Gaussian envelope, [Ampl/(Width*sqrt(2*pi)) * exp(-((x-Center)/Width)^2/2)]. *)
Theorem value_of_gaussian (ampl center width : R) (k : nat) (scratch : list R) (x : R) :
  width <> 0 -> length scratch = (k + 2)%nat ->
  value {| Ampl := ampl; Center := center; Width := width; moments := 1 :: repeat 0 (k + 1) |}
    scratch x
  = ampl / (width * sqrt (2 * PI))
    * exp (- (((x - center) / width) * ((x - center) / width)) / 2).
Proof.
  intros Hw Hs. unfold value. cbn [moments Ampl Center Width length].
  rewrite repeat_length.
  destruct (Nat.eqb_spec (S (k + 1)) 0) as [Hz|_]; [lia|].
  replace (Z.of_nat (S (k + 1)) - 1)%Z with (Z.of_nat (k + 1)) by lia.
  set (X := ((x - center) / width)%D).
  destruct (hermiteArray_spec (Z.of_nat (k + 1)) X scratch) as (H0 & _); [lia|lia|].
  assert (Hsum : for_range 0 (S (k + 1))
                   (fun i result =>
                      (result + get (1 :: repeat 0 (k + 1)) i
                                * get (hermiteArray (Z.of_nat (k + 1)) X scratch) i)%D) #0%D
                 = 1).
  { enough (H : forall n, (1 <= n)%nat ->
                  for_range 0 n
                    (fun i result =>
                       (result + get (1 :: repeat 0 (k + 1)) i
                                 * get (hermiteArray (Z.of_nat (k + 1)) X scratch) i)%D) #0%D
                  = 1) by (apply H; lia).
    intros n Hn. induction n as [|n IH]; [lia|].
    rewrite for_range_snoc by lia. destruct n as [|n].
    - rewrite for_range_nil by lia. rewrite H0. unfold get at 1, get_or. cbn [nth].
      real_arith. ring.
    - rewrite IH by lia. rewrite get_unit_coefficients by lia. real_arith. ring. }
  rewrite Hsum. unfold pow_2. fold X. real_arith.
  rewrite sqrt_mult by (pose proof PI_RGT_0; lra).
  assert (0 < sqrt 2) by (apply sqrt_lt_R0; lra).
  assert (0 < sqrt PI) by (apply sqrt_lt_R0, PI_RGT_0).
  replace (- (5 / 10 ^ 1) * (X * X)) with (- (X * X) / 2) by (simpl; field).
  subst X. field. repeat split; lra.
Qed.

Lemma value_of_gaussian_witness :
  value {| Ampl := 3; Center := 1; Width := 2; moments := 1 :: repeat 0 (1 + 1) |}
    [7; 7; 7] 5
  = 3 / (2 * sqrt (2 * PI)) * exp (- (((5 - 1) / 2) * ((5 - 1) / 2)) / 2).
Proof.
  apply (value_of_gaussian 3 1 2 1 [7; 7; 7] 5); [lra|reflexivity].
Defined.

Lemma fold_left_fixed {T : Type} (f : R -> T -> R) (l : list T) (acc : R) :
  (forall x, In x l -> f acc x = acc) -> fold_left f l acc = acc.
Proof.
  induction l as [|x l IH]; intros H; cbn; [reflexivity|].
  rewrite H by (now left). apply IH. intros y Hy. apply H. now right.
Qed.

(** X21: the total integral [norm()] of an expansion with the coefficients
    (1, 0, ..., 0) is its amplitude. *)
Theorem norm_of_gaussian (factorial dfactorial : nat -> R) (ampl center width : R) (k : nat) :
  norm factorial dfactorial
    {| Ampl := ampl; Center := center; Width := width; moments := 1 :: repeat 0 k |}
  = ampl.
Proof.
  rewrite norm_is_even_sum. cbn [moments Ampl]. unfold even_sum. cbn [length].
  cbn [seq filter Nat.even fold_left].
  replace (_ + _ * _)%D with 1.
  - rewrite fold_left_fixed; [real_arith; ring|].
    intros n Hn. apply filter_In in Hn. destruct Hn as [Hn _]. apply in_seq in Hn.
    rewrite get_unit_coefficients by lia. real_arith. ring.
  - unfold get, get_or, normn. cbn. real_arith. ring.
Qed.

(** *** The fitter *)

(** X22: the residuals are affine in the amplitude [vars[0]], and the first
    entry of each row of the Jacobian is their slope: changing the amplitude
    to [a] changes residual [k] by [derivs[k*(order+1)] * (a - vars[0])]. *)
Theorem residual_is_affine_in_amplitude (order : nat) (fnc : R -> R) (vars : list R) (a : R)
    (values derivs : list R) :
  (2 <= order)%nat -> (1 <= length vars)%nat ->
  length values = 99%nat -> length derivs = (99 * (order + 1))%nat ->
  exists v v' d,
    evalDeriv (GaussHermiteFitter order fnc) vars (Some values) (Some derivs)
    = (Some v, Some d) /\
    fst (evalDeriv (GaussHermiteFitter order fnc) (set vars 0 a) (Some values) (Some derivs))
    = Some v' /\
    forall k, (k < 99)%nat ->
      get v' k - get v k = get d (k * (order + 1)) * (a - get vars 0).
Proof.
  intros Ho Hv Hlv Hld.
  destruct (evalDeriv_values order fnc vars values (Some derivs)) as (v & Hev & _ & Hk); [lia|].
  destruct (evalDeriv_values order fnc (set vars 0 a) values (Some derivs))
    as (v' & Hev' & _ & Hk'); [lia|].
  destruct (evalDeriv_derivs_column_0 order fnc vars (Some values) derivs Ho Hld)
    as (d & Hd & _ & Hdk).
  exists v, v', d. split; [|split; [exact Hev'|]].
  - destruct (evalDeriv _ _ _ _) as [ov od]. cbn [fst snd] in Hev, Hd. now subst.
  - intros k Hk99. rewrite Hk, Hk', Hdk by lia.
    unfold fit_residual.
    rewrite fit_x_set_amplitude.
    pose proof (fit_mult_set_amplitude order vars a k) as Hm. unfold fit_mult in Hm |- *.
    rewrite Hm. rewrite get_set_same by lia. rewrite (get_set_other vars 0 2) by lia.
    real_arith. ring.
Qed.

Lemma residual_is_affine_in_amplitude_witness :
  exists v v' d,
    evalDeriv (GaussHermiteFitter 2 (fun x => x)) [1; 0; 4] (Some (repeat 0 99))
      (Some (repeat 0 (99 * (2 + 1))))
    = (Some v, Some d) /\
    fst (evalDeriv (GaussHermiteFitter 2 (fun x => x)) (set [1; 0; 4] 0 3)
           (Some (repeat 0 99)) (Some (repeat 0 (99 * (2 + 1)))))
    = Some v' /\
    forall k, (k < 99)%nat ->
      get v' k - get v k = get d (k * (2 + 1)) * (3 - get [1; 0; 4] 0).
Proof.
  apply (residual_is_affine_in_amplitude 2 (fun x => x) [1; 0; 4] 3
           (repeat 0 99) (repeat 0 (99 * (2 + 1)))).
  - lia.
  - simpl. lia.
  - apply repeat_length.
  - apply repeat_length.
Defined.

(** *** The classic moments *)

Lemma Req_bool_false (x y : R) : x <> y -> Req_bool x y = false.
Proof. intros H. unfold Req_bool. destruct (Req_dec_T x y); [contradiction|reflexivity]. Qed.

(** X23: scaling a quadrature outcome with non-zero normalisation by a factor
    [k <> 0] scales the normalisation by [k] and leaves the mean and the
    standard deviation as they are. *)
Theorem computeClassicMoments_scaling (fnc : R -> R) (k r0 r1 r2 : R) :
  k <> 0 -> r0 <> 0 ->
  get (computeClassicMoments (fixed_integrator [k * r0; k * r1; k * r2]) fnc) 0
  = k * get (computeClassicMoments (fixed_integrator [r0; r1; r2]) fnc) 0 /\
  get (computeClassicMoments (fixed_integrator [k * r0; k * r1; k * r2]) fnc) 1
  = get (computeClassicMoments (fixed_integrator [r0; r1; r2]) fnc) 1 /\
  get (computeClassicMoments (fixed_integrator [k * r0; k * r1; k * r2]) fnc) 2
  = get (computeClassicMoments (fixed_integrator [r0; r1; r2]) fnc) 2.
Proof.
  intros Hk Hr. unfold computeClassicMoments, fixed_integrator, pow_2.
  cbn [repeat set get get_or nth].
  assert (Hkr : k * r0 <> 0) by (apply Rmult_integral_contrapositive_currified; assumption).
  real_arith. rewrite !Req_bool_false by assumption. cbn [negb].
  repeat split.
  - field. split; assumption.
  - f_equal. f_equal. field. split; assumption.
Qed.

Lemma computeClassicMoments_scaling_witness :
  get (computeClassicMoments (fixed_integrator [3 * 2; 3 * 4; 3 * 10]) (fun x => x)) 0
  = 3 * get (computeClassicMoments (fixed_integrator [2; 4; 10]) (fun x => x)) 0 /\
  get (computeClassicMoments (fixed_integrator [3 * 2; 3 * 4; 3 * 10]) (fun x => x)) 1
  = get (computeClassicMoments (fixed_integrator [2; 4; 10]) (fun x => x)) 1 /\
  get (computeClassicMoments (fixed_integrator [3 * 2; 3 * 4; 3 * 10]) (fun x => x)) 2
  = get (computeClassicMoments (fixed_integrator [2; 4; 10]) (fun x => x)) 2.
Proof.
  apply (computeClassicMoments_scaling (fun x => x) 3 2 4 10); lra.
Defined.

(** X24: the integrand returns as many values as it declares; for an even
    function the integrand of the first moment vanishes, for an odd function
    those of the normalisation and of the second moment do. *)
Theorem MomentsIntegrand_symmetries (fnc : R -> R) (vars : list R) :
  length (eval (MomentsIntegrand fnc) vars) = numValues (MomentsIntegrand fnc) /\
  ((forall t, fnc (- t) = fnc t) -> get (eval (MomentsIntegrand fnc) vars) 1 = 0) /\
  ((forall t, fnc (- t) = - fnc t) ->
   get (eval (MomentsIntegrand fnc) vars) 0 = 0 /\
   get (eval (MomentsIntegrand fnc) vars) 2 = 0).
Proof.
  cbn [eval numValues MomentsIntegrand]. repeat split.
  - destruct (_ || _); reflexivity.
  - intros Heven. destruct (_ || _); [reflexivity|].
    unfold get, get_or. cbn [nth]. rewrite Heven. real_arith. ring.
  - destruct (_ || _); [reflexivity|].
    unfold get, get_or. cbn [nth]. rewrite H. real_arith. ring.
  - destruct (_ || _); [reflexivity|].
    unfold get, get_or. cbn [nth]. rewrite H. real_arith. ring.
Qed.
End MoreOverReals.

(** ** In binary64: NaN and infinities *)

Section MoreOverBinary64.
Variable libm_exp : spec_float -> spec_float.
Variable integrateNdim :
  IFunctionNdim spec_float -> list spec_float -> list spec_float -> spec_float -> nat ->
  list spec_float.
Variable nonlinearMultiFit :
  IFunctionNdimDeriv spec_float -> list spec_float -> spec_float -> Z -> list spec_float.

Lemma add_finite x y :
  B64.is_finite (B64.add x y) = true -> B64.is_finite x = true /\ B64.is_finite y = true.
Proof.
  intros H.
  destruct x as [sx|sx| |sx mx ex], y as [sy|sy| |sy my ey];
    try (split; reflexivity); exfalso; cbn in H; try discriminate H.
  destruct sx, sy; discriminate H.
Qed.

Lemma div_nan x : B64.div x S754_nan = S754_nan.
Proof. destruct x; reflexivity. Qed.

Lemma mul_nan x : B64.mul x S754_nan = S754_nan.
Proof. destruct x; reflexivity. Qed.

(** X25: in binary64 a NaN normalisation passes the two tests [!= 0], so the
    mean is NaN, while [fmax] drops the NaN variance and the standard
    deviation is +0: the moments are [NaN, NaN, +0]. *)
Theorem nan_normalisation_gives_zero_stddev (fnc : spec_float -> spec_float) :
  get (A := Binary64 libm_exp)
    (integrateNdim (MomentsIntegrand (A := Binary64 libm_exp) fnc)
       [B64.of_Z 0] [B64.of_Z 1] (EPSREL_MOMENTS (A := Binary64 libm_exp)) 1000) 0
  = S754_nan ->
  computeClassicMoments (A := Binary64 libm_exp) integrateNdim fnc
  = [S754_nan; S754_nan; S754_zero false].
Proof.
  intros H. unfold computeClassicMoments.
  change (@of_Z _ (Binary64 libm_exp)) with B64.of_Z.
  rewrite H. cbn -[B64.div]. rewrite !div_nan. reflexivity.
Qed.

(** X26: in binary64 an amplitude, centre or width that is infinite or NaN
    makes the sum tested by the constructor non-finite, so that the moments
    are estimated and the envelope is fitted before the coefficients are
    integrated. *)
Theorem ctor_non_finite_argument_fits fnc order ampl center width :
  (2 <= order)%nat ->
  B64.is_finite ampl && B64.is_finite center && B64.is_finite width = false ->
  fst (GaussHermiteExpansion_ctor (A := Binary64 libm_exp) integrateNdim nonlinearMultiFit
         fnc order ampl center width)
  = [MomentEstimation; Fitting; CoefficientIntegration].
Proof.
  intros Ho Hnf. rewrite ctor_phases by exact Ho.
  change (@isFinite _ (Binary64 libm_exp)) with B64.is_finite.
  change (@dadd _ (Binary64 libm_exp)) with B64.add.
  destruct (B64.is_finite (B64.add (B64.add ampl center) width)) eqn:E; [|reflexivity].
  apply add_finite in E. destruct E as [E Ew]. apply add_finite in E. destruct E as [Ea Ec].
  rewrite Ea, Ec, Ew in Hnf. discriminate.
Qed.

(** X27: the integrand at the two ends of the range, with an [exp] that
    follows Annex F of C ([exp(+inf) = +inf], [exp(-inf) = +0]).  At [z = 1]
    the Jacobian is infinite and the three values are 0 whatever the
    function.  At [z = 0] the Jacobian is [0 * inf = NaN], which the test
    against INFINITY lets through: the three values are NaN unless the
    function is zero at both [+0] and [-0]. *)
Theorem MomentsIntegrand_at_the_ends (fnc : spec_float -> spec_float) :
  libm_exp (S754_infinity false) = S754_infinity false ->
  libm_exp (S754_infinity true) = S754_zero false ->
  eval (MomentsIntegrand (A := Binary64 libm_exp) fnc) [B64.of_Z 1]
  = [S754_zero false; S754_zero false; S754_zero false] /\
  (SFeqb (fnc (S754_zero false)) (S754_zero false)
   && SFeqb (fnc (S754_zero true)) (S754_zero false) = false ->
   eval (MomentsIntegrand (A := Binary64 libm_exp) fnc) [B64.of_Z 0]
   = [S754_nan; S754_nan; S754_nan]).
Proof.
  intros Hp Hm. split.
  - cbn [eval MomentsIntegrand].
    assert (Ex : @dexp _ (Binary64 libm_exp)
                   (@dsub _ (Binary64 libm_exp)
                      (@ddiv _ (Binary64 libm_exp) (@of_Z _ (Binary64 libm_exp) 1)
                         (@dsub _ (Binary64 libm_exp) (@of_Z _ (Binary64 libm_exp) 1)
                            (get (A := Binary64 libm_exp) [B64.of_Z 1] 0)))
                      (@ddiv _ (Binary64 libm_exp) (@of_Z _ (Binary64 libm_exp) 1)
                         (get (A := Binary64 libm_exp) [B64.of_Z 1] 0)))
                 = S754_infinity false).
    { cbn [dexp Binary64]. transitivity (libm_exp (S754_infinity false)); [|exact Hp].
      f_equal. }
    rewrite Ex.
    assert (Ej : @isINFINITY _ (Binary64 libm_exp)
                   (@dmul _ (Binary64 libm_exp) (S754_infinity false)
                      (@dadd _ (Binary64 libm_exp)
                         (@ddiv _ (Binary64 libm_exp) (@of_Z _ (Binary64 libm_exp) 1)
                            (pow_2 (A := Binary64 libm_exp)
                               (@dsub _ (Binary64 libm_exp) (@of_Z _ (Binary64 libm_exp) 1)
                                  (get (A := Binary64 libm_exp) [B64.of_Z 1] 0))))
                         (@ddiv _ (Binary64 libm_exp) (@of_Z _ (Binary64 libm_exp) 1)
                            (pow_2 (A := Binary64 libm_exp)
                               (get (A := Binary64 libm_exp) [B64.of_Z 1] 0)))))
                 = true) by reflexivity.
    rewrite Ej. rewrite orb_true_r. reflexivity.
  - intros Hf. cbn [eval MomentsIntegrand].
    assert (Ex : @dexp _ (Binary64 libm_exp)
                   (@dsub _ (Binary64 libm_exp)
                      (@ddiv _ (Binary64 libm_exp) (@of_Z _ (Binary64 libm_exp) 1)
                         (@dsub _ (Binary64 libm_exp) (@of_Z _ (Binary64 libm_exp) 1)
                            (get (A := Binary64 libm_exp) [B64.of_Z 0] 0)))
                      (@ddiv _ (Binary64 libm_exp) (@of_Z _ (Binary64 libm_exp) 1)
                         (get (A := Binary64 libm_exp) [B64.of_Z 0] 0)))
                 = S754_zero false).
    { cbn [dexp Binary64]. transitivity (libm_exp (S754_infinity true)); [|exact Hm].
      f_equal. }
    rewrite Ex.
    change (@dopp _ (Binary64 libm_exp) (S754_zero false)) with (S754_zero true).
    change (@deqb _ (Binary64 libm_exp)) with SFeqb.
    change (@of_Z _ (Binary64 libm_exp) 0) with (S754_zero false).
    rewrite Hf. cbn [orb].
    assert (Ej : @dmul _ (Binary64 libm_exp) (S754_zero false)
                      (@dadd _ (Binary64 libm_exp)
                         (@ddiv _ (Binary64 libm_exp) (@of_Z _ (Binary64 libm_exp) 1)
                            (pow_2 (A := Binary64 libm_exp)
                               (@dsub _ (Binary64 libm_exp) (@of_Z _ (Binary64 libm_exp) 1)
                                  (get (A := Binary64 libm_exp) [B64.of_Z 0] 0))))
                         (@ddiv _ (Binary64 libm_exp) (@of_Z _ (Binary64 libm_exp) 1)
                            (pow_2 (A := Binary64 libm_exp)
                               (get (A := Binary64 libm_exp) [B64.of_Z 0] 0))))
                 = S754_nan) by reflexivity.
    rewrite Ej.
    change (@isINFINITY _ (Binary64 libm_exp) S754_nan) with false.
    change (@dmul _ (Binary64 libm_exp)) with B64.mul.
    rewrite !mul_nan. reflexivity.
Qed.
End MoreOverBinary64.

Lemma nan_normalisation_witness :
  computeClassicMoments (A := Binary64 exp_limits)
    (fixed_integrator [S754_nan; B64.of_Z 1; B64.of_Z 1]) (fun x => x)
  = [S754_nan; S754_nan; S754_zero false].
Proof.
  apply (nan_normalisation_gives_zero_stddev exp_limits
           (fixed_integrator [S754_nan; B64.of_Z 1; B64.of_Z 1]) (fun x => x)).
  reflexivity.
Defined.

Lemma ctor_non_finite_argument_witness :
  fst (GaussHermiteExpansion_ctor (A := Binary64 exp_limits)
         (fixed_integrator [B64.of_Z 1; B64.of_Z 0; B64.of_Z 1]) (fun _ p _ _ => p)
         (fun x => x) 2 (S754_infinity false) (S754_infinity true) (B64.of_Z 1))
  = [MomentEstimation; Fitting; CoefficientIntegration].
Proof.
  apply (ctor_non_finite_argument_fits exp_limits
           (fixed_integrator [B64.of_Z 1; B64.of_Z 0; B64.of_Z 1]) (fun _ p _ _ => p)
           (fun x => x) 2 (S754_infinity false) (S754_infinity true) (B64.of_Z 1)).
  - lia.
  - reflexivity.
Defined.

Lemma MomentsIntegrand_at_the_ends_witness :
  eval (MomentsIntegrand (A := Binary64 exp_limits) (fun _ => B64.of_Z 1)) [B64.of_Z 1]
  = [S754_zero false; S754_zero false; S754_zero false] /\
  (SFeqb (B64.of_Z 1) (S754_zero false) && SFeqb (B64.of_Z 1) (S754_zero false) = false ->
   eval (MomentsIntegrand (A := Binary64 exp_limits) (fun _ => B64.of_Z 1)) [B64.of_Z 0]
   = [S754_nan; S754_nan; S754_nan]).
Proof.
  apply (MomentsIntegrand_at_the_ends exp_limits (fun _ => B64.of_Z 1)); reflexivity.
Defined.
